(** * Entity status and status history (package state, status.go)

    A shallow embedding of the status subsystem: the key escaper
    ([mapKeys], [escapeKeys], [unescapeKeys]), the status store
    ([getStatus], [setStatus]), the history recorder
    ([probablyUpdateStatusHistory]), the history reader ([statusHistory])
    and the history pruner ([PruneStatusHistory]).

    The document store (mgo collections, the transaction runner, the
    sequence allocator), the clock and the logger are modelled by an
    in-memory [State], a [World] of outside influences (the clock reading,
    injected store failures, writes of rival agents) and a trace of the
    store calls made. *)

From stdpp Require Import gmap strings list fin_maps sorting.

Open Scope Z_scope.

(** ** Errors (github.com/juju/errors and mgo sentinels) *)

Inductive error :=
| ErrNotFound                              (* mgo.ErrNotFound *)
| StoreFailure (msg : string)              (* any other failure of the store *)
| Invalidated (msg : string)               (* a leadership token that no longer holds *)
| NotFoundf (badge : string)               (* errors.NotFoundf(badge) *)
| Annotatef (err : error) (msg : string)   (* errors.Annotatef(err, msg) *)
| Trace (err : error).                     (* errors.Trace(err) *)

(** errors.Cause: the innermost error below annotations and traces. *)
Fixpoint Cause (err : error) : error :=
  match err with
  | Annotatef e _ => Cause e
  | Trace e => Cause e
  | _ => err
  end.

(** The test [errors.Cause(err) == mgo.ErrNotFound] on a possibly nil error. *)
Definition causeIsErrNotFound (err : option error) : bool :=
  match err with
  | Some e => match Cause e with ErrNotFound => true | _ => false end
  | None => false
  end.

(** [err == mgo.ErrNotFound], a comparison with the sentinel itself. *)
Definition isErrNotFound (err : error) : bool :=
  match err with ErrNotFound => true | _ => false end.

(** errors.IsNotFound, and the badge a NotFound error carries. *)
Definition notFoundBadge (err : error) : option string :=
  match Cause err with NotFoundf badge => Some badge | _ => None end.

Definition IsNotFound (err : error) : bool :=
  match notFoundBadge err with Some _ => true | None => false end.

(** errors.Trace on a possibly nil error. *)
Definition TraceOpt (err : option error) : option error := Trace <$> err.

(** errors.DeferredAnnotatef(&err, msg): annotates a non-nil error on return. *)
Definition DeferredAnnotatef (err : option error) (msg : string) : option error :=
  (fun e => Annotatef e msg) <$> err.

(** ** Status data: map[string]interface{} *)

(** The dynamic values a status data map holds. Only [VMap] is a
    map[string]interface{}; a slice may hold maps but is not one. *)
#[warnings="-register-all"]
Inductive Value :=
| VNil
| VBool (b : bool)
| VInt (n : Z)
| VString (s : string)
| VSlice (l : list Value)
| VMap (m : gmap string Value).

(** mapKeys, on one value of the input map: the type assertion
    [value.(map[string]interface{})] and the recursive call. *)
Fixpoint mapValue (f : string -> string) (value : Value) : Value :=
  match value with
  | VMap submap =>
      VMap (map_fold (fun key value result => <[f key := mapValue f value]> result)
                     ∅ submap)
  | _ => value
  end.

(** mapKeys returns a copy of the supplied map, with all nested
    map[string]interface{} keys transformed by f. The entries are visited in
    the order [map_fold] visits them; the order of Go's range is not
    specified, and shows in the result only when f sends two keys of a map
    to one. *)
Definition mapKeys (f : string -> string) (input : gmap string Value)
  : gmap string Value :=
  map_fold (fun key value result => <[f key := mapValue f value]> result) ∅ input.

(** Every key of the map, at every nesting level reached through maps,
    satisfies [ok]. *)
Fixpoint keysAllValue (ok : string -> bool) (v : Value) : bool :=
  match v with
  | VMap m => map_fold (fun k v acc => ok k && keysAllValue ok v && acc) true m
  | _ => true
  end.

Definition keysAll (ok : string -> bool) (m : gmap string Value) : bool :=
  map_fold (fun k v acc => ok k && keysAllValue ok v && acc) true m.

(** [nestedKey k m]: k is a key of m or of a map nested in m. *)
Inductive nestedKey : string -> gmap string Value -> Prop :=
| nestedKey_here m k v : m !! k = Some v -> nestedKey k m
| nestedKey_below m k sub k' :
    m !! k = Some (VMap sub) -> nestedKey k' sub -> nestedKey k' m.

(** Size of a value, the measure of the recursion of [mapValue]. *)
Fixpoint vsize (v : Value) : nat :=
  match v with
  | VMap m => S (map_fold (fun _ v acc => (vsize v + acc)%nat) 0%nat m)
  | _ => 1%nat
  end.

(** ** Maps as Go has them: references into a heap

    A Go map is a reference; [mapKeys] allocates its result with [make] and
    assigns into it. This second embedding keeps the references, to state
    what the function writes. *)

Definition loc := nat.

Inductive RefValue :=
| RNil
| RBool (b : bool)
| RInt (n : Z)
| RString (s : string)
| RMap (l : loc).            (* a map[string]interface{}, by reference *)

Abbreviation heap := (gmap loc (gmap string RefValue)).

(** The entries of the map at l; a nil or unallocated map has none. *)
Definition entriesAt (h : heap) (l : loc) : gmap string RefValue :=
  default ∅ (h !! l).

(** [result[key] = value] *)
Definition assign (result : loc) (key : string) (value : RefValue) (h : heap) : heap :=
  <[result := <[key := value]> (entriesAt h result)]> h.

(** One turn of the loop of mapKeys, on the entry (key, value) of the input:
    a value that is a map is replaced by what the recursive call returns. *)
Definition copyEntry (mapKeys : loc -> heap -> option (loc * heap))
    (f : string -> string) (result : loc) (entry : string * RefValue)
    (acc : option heap) : option heap :=
  match acc with
  | None => None
  | Some h1 =>
      match entry.2 with
      | RMap submap =>
          match mapKeys submap h1 with
          | Some (value, h2) => Some (assign result (f entry.1) (RMap value) h2)
          | None => None
          end
      | value => Some (assign result (f entry.1) value h1)
      end
  end.

(** mapKeys over the heap. The fuel bounds the nesting depth followed (a map
    that contains itself makes the Go function recurse forever). The entries
    are visited in the order [map_fold] visits them. *)
Fixpoint mapKeysRef (fuel : nat) (f : string -> string) (input : loc) (h : heap)
  : option (loc * heap) :=
  match fuel with
  | O => None
  | S fuel' =>
      let result := fresh (dom h) in
      let h0 : heap := <[result := ∅]> h in
      match foldr (copyEntry (mapKeysRef fuel' f) f result) (Some h0)
                  (map_to_list (entriesAt h input)) with
      | Some h' => Some (result, h')
      | None => None
      end
  end.

(** [holdsForRefs p m]: p holds of every map reference among the values
    of m. *)
Definition holdsForRefs (p : loc -> bool) (m : gmap string RefValue) : bool :=
  map_fold (fun _ v acc => match v with RMap l => p l | _ => true end && acc) true m.

(** [closed h]: every map reference in the heap is to an allocated map. *)
Definition closed (h : heap) : bool :=
  map_fold (fun _ m acc => holdsForRefs (fun l => bool_decide (l ∈ dom h)) m && acc)
           true h.

(** [nesting h n l]: the maps reachable from l nest less than n deep. *)
Fixpoint nesting (h : heap) (n : nat) (l : loc) : bool :=
  match n with
  | O => false
  | S n' => holdsForRefs (nesting h n') (entriesAt h l)
  end.

(** [agree h h']: every map allocated in h is in h' what it is in h. *)
Definition agree (h h' : heap) : Prop :=
  forall l, l ∈ dom h -> h' !! l = h !! l.

(** [reaches h l l']: the map l' is l or is nested in l, at any depth. *)
Inductive reaches (h : heap) (l : loc) : loc -> Prop :=
| reaches_here : reaches h l l
| reaches_below l1 k l2 :
    reaches h l l1 -> entriesAt h l1 !! k = Some (RMap l2) -> reaches h l l2.

(** What holds of the heap during the loop of one call of mapKeys: the maps
    of the entry heap h are as they were, the result is allocated, and the
    maps allocated since refer to maps allocated since only. *)
Record copying (h : heap) (result : loc) (hc : heap) : Prop := {
  copying_agree : agree h hc;
  copying_result : result ∈ dom hc;
  copying_fresh : forall l k l',
    l ∉ dom h -> entriesAt hc l !! k = Some (RMap l') -> l' ∉ dom h;
  copying_closed : closed h = true -> closed hc = true;
}.

Definition framed (h : heap) (result : loc) (h' : heap) : Prop :=
  (result ∉ dom h) /\ copying h result h'.

(** The value a heap value stands for, given what its map references do. *)
Definition readValue (read : loc -> gmap string Value) (v : RefValue) : Value :=
  match v with
  | RNil => VNil
  | RBool b => VBool b
  | RInt n => VInt n
  | RString s => VString s
  | RMap l => VMap (read l)
  end.

(** The map the reference l stands for in the heap h, followed n deep. *)
Fixpoint readMap (h : heap) (n : nat) (l : loc) : gmap string Value :=
  match n with
  | O => ∅
  | S n' => readValue (readMap h n') <$> entriesAt h l
  end.

(** What the loop of mapKeys has built in the result after the entries es:
    the transformed entries, and no way back from them to the result. *)
Definition built (f : string -> string) (h : heap) (n : nat) (result : loc)
    (es : list (string * RefValue)) (hc : heap) : Prop :=
  readValue (readMap hc n) <$> entriesAt hc result
  = foldr (fun e res => <[f e.1 := mapValue f (readValue (readMap h n) e.2)]> res)
          ∅ es
  /\ (forall k l' x, entriesAt hc result !! k = Some (RMap l') ->
        reaches hc l' x -> x <> result).

(** ** strings.Replacer

    [Replace] of a replacer built by strings.NewReplacer from old/new pairs:
    replacements are made from left to right without overlap, and at each
    position the old strings are compared in argument order. Both replacers
    of this package have non-empty old strings; an empty one never matches
    here. *)

Fixpoint hasPrefix (old s : string) : bool :=
  match old, s with
  | EmptyString, _ => true
  | String a old', String b s' => Ascii.eqb a b && hasPrefix old' s'
  | String _ _, EmptyString => false
  end.

Definition matchAt (oldnew : list (string * string)) (s : string)
  : option (string * string) :=
  List.find (fun p => negb (String.eqb p.1 "") && hasPrefix p.1 s) oldnew.

Fixpoint replaceFrom (oldnew : list (string * string)) (skip : nat) (s : string)
  : string :=
  match s with
  | EmptyString => EmptyString
  | String c rest =>
      match skip with
      | S n => replaceFrom oldnew n rest
      | O =>
          match matchAt oldnew s with
          | Some (old, new) =>
              new +:+ replaceFrom oldnew (String.length old - 1)%nat rest
          | None => String c (replaceFrom oldnew 0%nat rest)
          end
      end
  end.

Definition Replace (oldnew : list (string * string)) (s : string) : string :=
  replaceFrom oldnew 0%nat s.

(** An instance of the substitution table: the characters the store reserves
    in keys, "." and "$", and their full-width forms U+FF0E and U+FF04
    (three bytes each in UTF-8). *)
Definition byte (n : nat) : Ascii.ascii := Ascii.ascii_of_nat n.
Definition fullWidthDot : string :=
  String (byte 239) (String (byte 188) (String (byte 142) EmptyString)).
Definition fullWidthDollar : string :=
  String (byte 239) (String (byte 188) (String (byte 132) EmptyString)).

Definition fullWidthEscape : string -> string :=
  Replace [(".", fullWidthDot); ("$", fullWidthDollar)].
Definition fullWidthUnescape : string -> string :=
  Replace [(fullWidthDot, "."); (fullWidthDollar, "$")].

(** [hasFullWidth k]: k contains an escaped form. *)
Fixpoint hasFullWidth (k : string) : bool :=
  match k with
  | EmptyString => false
  | String _ rest =>
      hasPrefix fullWidthDot k || hasPrefix fullWidthDollar k
      || hasFullWidth rest
  end.

(** ** Documents *)

Module statusDoc.
(** statusDoc represents an entity status in Mongodb. [Updated] is a
    pointer, here an option, in nanoseconds since the epoch. *)
Record t := mk {
  EnvUUID : string;
  Status : string;
  StatusInfo : string;
  StatusData : gmap string Value;
  Updated : option Z;
  NeverSet : bool;
}.
End statusDoc.

Module StatusInfo.
Record t := mk {
  Status : string;
  Message : string;
  Data : gmap string Value;
  Since : option Z;
}.
(** The zero value StatusInfo{}. *)
Definition zero : t := mk "" "" ∅ None.
End StatusInfo.

Module historicalStatusDoc.
Record t := mk {
  Id : Z;
  EnvUUID : string;
  EntityId : string;
  Status : string;
  StatusInfo : string;
  StatusData : gmap string Value;
  Updated : option Z;
}.
End historicalStatusDoc.

Module Token.
(** leadership.Token. Modelled from the spec: the token's Check, given the
    operations in flight, either leaves them unmodified or returns an
    invalidation signal. [invalid] holds the signal of a token that no
    longer holds. *)
Record t := mk { invalid : option string }.
End Token.

Module setStatusParams.
(** setStatusParams configures a setStatus call. *)
Record t := mk {
  badge : string;
  globalKey : string;
  status : string;
  message : string;
  rawData : gmap string Value;
  token : option Token.t;
}.
End setStatusParams.

Module txn.
(** The assertions and changes of a txn.Op used by this file. *)
Inductive assertion :=
| AssertNone
| DocMissing
| AssertTxnRevno (revno : Z).        (* bson.D{{"txn-revno", revno}} *)

Record Op := mkOp {
  C : string;
  Id : string;
  Assert : assertion;
  Insert : option statusDoc.t;
  Update : option statusDoc.t;       (* bson.D{{"$set", &doc}} *)
  Remove : bool;
}.
End txn.

Module Query.
(** An mgo query on the status history collection: the filter on
    "entityid" (None for Find(nil)), whether Sort("-_id") was asked, and
    the Skip and Limit values. *)
Record t := mk {
  entityid : option string;
  sortDescId : bool;
  skip : Z;
  limit : Z;
}.
End Query.

(** ** The store *)

Definition statusesC : string := "statuses".
Definition statusesHistoryC : string := "statuseshistory".

(** The calls made to the store, in order. *)
Inductive Call :=
| CallSequence (name : string)
| CallInsert (doc : historicalStatusDoc.t)
| CallFindId (id : string)
| CallReadTxnRevno (id : string)
| CallRunTxn (ops : list txn.Op)
| CallAll (q : Query.t)
| CallOne (q : Query.t)
| CallDistinct (q : Query.t)
| CallRemoveAll (entityid : string) (idBelow : Z).

Record State := mkState {
  (* statusesC: each document with its txn-revno, by _id *)
  statuses : gmap string (statusDoc.t * Z);
  (* statusesHistoryC *)
  history : list historicalStatusDoc.t;
  (* the next value of the "statushistory" sequence *)
  nextSequence : Z;
  EnvironUUID : string;
  (* what logger.Errorf was given: the format and the error *)
  logged : list (string * error);
  calls : list Call;
}.

Record World := mkWorld {
  (* time.Now(), in nanoseconds since the epoch *)
  clock : Z;
  (* the store failure, if any, that strikes the n-th store call *)
  fault : nat -> option string;
  (* what rival agents write to statusesC between a transaction's
     revision read and its execution *)
  rivals : gmap string (statusDoc.t * Z) -> gmap string (statusDoc.t * Z);
}.

Definition withStatuses (s : gmap string (statusDoc.t * Z)) (st : State) : State :=
  mkState s (history st) (nextSequence st) (EnvironUUID st) (logged st) (calls st).
Definition withHistory (h : list historicalStatusDoc.t) (st : State) : State :=
  mkState (statuses st) h (nextSequence st) (EnvironUUID st) (logged st) (calls st).
Definition withNextSequence (n : Z) (st : State) : State :=
  mkState (statuses st) (history st) n (EnvironUUID st) (logged st) (calls st).
Definition withLogged (l : list (string * error)) (st : State) : State :=
  mkState (statuses st) (history st) (nextSequence st) (EnvironUUID st) l (calls st).
Definition withCalls (c : list Call) (st : State) : State :=
  mkState (statuses st) (history st) (nextSequence st) (EnvironUUID st) (logged st) c.

(** One call to the store: it is recorded, and fails if the world says so. *)
Definition storeCall (w : World) (c : Call) (st : State) : State * option error :=
  (withCalls (calls st ++ [c]) st, StoreFailure <$> fault w (length (calls st))).

(** logger.Errorf *)
Definition Errorf (format : string) (err : error) (st : State) : State :=
  withLogged (logged st ++ [(format, err)]) st.

(** ** Queries on the status history collection (mgo.Query) *)

Definition Find (entityid : option string) : Query.t :=
  Query.mk entityid false 0 0.
Definition SortDescId (q : Query.t) : Query.t :=
  Query.mk (Query.entityid q) true (Query.skip q) (Query.limit q).
Definition Skip (n : Z) (q : Query.t) : Query.t :=
  Query.mk (Query.entityid q) (Query.sortDescId q) n (Query.limit q).
Definition Limit (n : Z) (q : Query.t) : Query.t :=
  Query.mk (Query.entityid q) (Query.sortDescId q) (Query.skip q) n.

(** Descending order of the _id field. *)
Definition newerEq (a b : historicalStatusDoc.t) : Prop :=
  historicalStatusDoc.Id b <= historicalStatusDoc.Id a.

#[global] Instance newerEq_dec a b : Decision (newerEq a b).
Proof. unfold newerEq. apply _. Defined.

Definition ofEntity (globalKey : string) (d : historicalStatusDoc.t) : Prop :=
  historicalStatusDoc.EntityId d = globalKey.

#[global] Instance ofEntity_dec k d : Decision (ofEntity k d).
Proof. unfold ofEntity. apply _. Defined.

(** The documents a query selects, filtered and ordered, before Skip and
    Limit apply. *)
Definition selected (q : Query.t) (coll : list historicalStatusDoc.t)
  : list historicalStatusDoc.t :=
  let matching :=
    match Query.entityid q with
    | Some globalKey => filter (ofEntity globalKey) coll
    | None => coll
    end in
  if Query.sortDescId q then merge_sort newerEq matching else matching.

(** mgo's Limit: a limit of zero is no limit, and a negative n limits to
    its absolute value. *)
Definition limited (n : Z) (docs : list historicalStatusDoc.t)
  : list historicalStatusDoc.t :=
  if decide (n = 0) then docs else take (Z.abs_nat n) docs.

(** The store refuses a query with a negative skip. *)
Definition skipped (n : Z) (docs : list historicalStatusDoc.t)
  : error + list historicalStatusDoc.t :=
  if decide (n < 0) then inl (StoreFailure "bad skip value in query")
  else inr (drop (Z.to_nat n) docs).

(** query.All(&docs): every selected document, after Skip and Limit. It does
    not report an empty result as an error. *)
Definition All (w : World) (q : Query.t) (st : State)
  : State * (error + list historicalStatusDoc.t) :=
  let '(st1, failure) := storeCall w (CallAll q) st in
  match failure with
  | Some err => (st1, inl err)
  | None =>
      match skipped (Query.skip q) (selected q (history st1)) with
      | inl err => (st1, inl err)
      | inr docs => (st1, inr (limited (Query.limit q) docs))
      end
  end.

(** query.One(&result): the first selected document after Skip, or
    mgo.ErrNotFound when there is none. *)
Definition One (w : World) (q : Query.t) (st : State)
  : State * (error + historicalStatusDoc.t) :=
  let '(st1, failure) := storeCall w (CallOne q) st in
  match failure with
  | Some err => (st1, inl err)
  | None =>
      match skipped (Query.skip q) (selected q (history st1)) with
      | inl err => (st1, inl err)
      | inr [] => (st1, inl ErrNotFound)
      | inr (doc :: _) => (st1, inr doc)
      end
  end.

(** query.Distinct("entityid", &entityKeys) *)
Definition Distinct (w : World) (q : Query.t) (st : State)
  : State * (error + list string) :=
  let '(st1, failure) := storeCall w (CallDistinct q) st in
  match failure with
  | Some err => (st1, inl err)
  | None =>
      (st1, inr (remove_dups (historicalStatusDoc.EntityId <$> selected q (history st1))))
  end.

(** [doomed globalKey keepUpTo]: the selector
    {entityid: globalKey, _id: {$lt: keepUpTo}} of the pruner. *)
Definition doomed (globalKey : string) (keepUpTo : Z) (d : historicalStatusDoc.t)
  : bool :=
  bool_decide (historicalStatusDoc.EntityId d = globalKey)
  && bool_decide (historicalStatusDoc.Id d < keepUpTo).

(** historyW.RemoveAll(selector) *)
Definition RemoveAll (w : World) (globalKey : string) (keepUpTo : Z) (st : State)
  : State * option error :=
  let '(st1, failure) := storeCall w (CallRemoveAll globalKey keepUpTo) st in
  match failure with
  | Some err => (st1, Some err)
  | None =>
      (withHistory (filter (fun d => doomed globalKey keepUpTo d = false) (history st1)) st1,
       None)
  end.

(** historyW.Insert(historyDoc): the _id is unique in the collection. *)
Definition Insert (w : World) (doc : historicalStatusDoc.t) (st : State)
  : State * option error :=
  let '(st1, failure) := storeCall w (CallInsert doc) st in
  match failure with
  | Some err => (st1, Some err)
  | None =>
      if decide (historicalStatusDoc.Id doc ∈ historicalStatusDoc.Id <$> history st1)
      then (st1, Some (StoreFailure "duplicate key"))
      else (withHistory (history st1 ++ [doc]) st1, None)
  end.

(** statuses.FindId(globalKey).One(&doc) *)
Definition FindIdOne (w : World) (globalKey : string) (st : State)
  : State * (error + statusDoc.t) :=
  let '(st1, failure) := storeCall w (CallFindId globalKey) st in
  match failure with
  | Some err => (st1, inl err)
  | None =>
      match statuses st1 !! globalKey with
      | Some (doc, _) => (st1, inr doc)
      | None => (st1, inl ErrNotFound)
      end
  end.

(** st.sequence(name). Modelled from the spec: the store's atomic counter
    allocator, producing a strictly increasing integer per call. *)
Definition sequence (w : World) (name : string) (st : State) : State * (error + Z) :=
  let '(st1, failure) := storeCall w (CallSequence name) st in
  match failure with
  | Some err => (st1, inl err)
  | None => (withNextSequence (nextSequence st1 + 1) st1, inr (nextSequence st1))
  end.

(** st.readTxnRevno(collection, id). Modelled from the spec: reads the
    record's current store-assigned revision; a record that does not exist is
    reported as not found. *)
Definition readTxnRevno (w : World) (collection id : string) (st : State)
  : State * (error + Z) :=
  let '(st1, failure) := storeCall w (CallReadTxnRevno id) st in
  match failure with
  | Some err => (st1, inl (Trace err))
  | None =>
      match statuses st1 !! id with
      | Some (_, revno) => (st1, inr revno)
      | None => (st1, inl (Trace ErrNotFound))
      end
  end.

(** nowToTheSecond(). Modelled from the spec: the current time truncated to
    one-second precision. *)
Definition second : Z := 1000000000.
Definition nowToTheSecond (w : World) : Z := clock w / second * second.

(** ** Transactions *)

(** jujutxn.TransactionSource: builds the operations of an attempt. *)
Definition TransactionSource : Type :=
  Z -> State -> State * (error + list txn.Op).

Definition assertHolds (coll : gmap string (statusDoc.t * Z)) (op : txn.Op) : bool :=
  match txn.Assert op with
  | txn.AssertNone => true
  | txn.DocMissing => bool_decide (coll !! txn.Id op = None)
  | txn.AssertTxnRevno revno =>
      match coll !! txn.Id op with
      | Some (_, current) => bool_decide (current = revno)
      | None => false
      end
  end.

(** The change one operation makes; each change to a document moves its
    txn-revno on, and mgo/txn starts an inserted document at 2. *)
Definition applyOp (coll : gmap string (statusDoc.t * Z)) (op : txn.Op)
  : gmap string (statusDoc.t * Z) :=
  if txn.Remove op then delete (txn.Id op) coll
  else match coll !! txn.Id op, txn.Insert op, txn.Update op with
       | None, Some doc, _ => <[txn.Id op := (doc, 2)]> coll
       | Some (_, revno), _, Some doc => <[txn.Id op := (doc, revno + 1)]> coll
       | _, _, _ => coll
       end.

(** st.run(buildTxn). Modelled from the spec: the composed operation is
    executed as a conditional write: the operations are built, then applied
    all together if every assertion still holds; a failed assertion is
    reported by the store in the same error class as not found. Rival agents
    may write between the build and the execution. *)
Definition run (w : World) (buildTxn : TransactionSource) (st : State)
  : State * option error :=
  let '(st1, built) := buildTxn 0 st in
  match built with
  | inl err => (st1, Some err)
  | inr ops =>
      let st2 := withStatuses (rivals w (statuses st1)) st1 in
      let '(st3, failure) := storeCall w (CallRunTxn ops) st2 in
      match failure with
      | Some err => (st3, Some err)
      | None =>
          if forallb (assertHolds (statuses st3)) ops
          then (withStatuses (foldl applyOp (statuses st3) ops) st3, None)
          else (st3, Some ErrNotFound)
      end
  end.

(** token.Check(&ops) *)
Definition Check (token : Token.t) (ops : list txn.Op) : error + list txn.Op :=
  match Token.invalid token with
  | Some signal => inl (Invalidated signal)
  | None => inr ops
  end.

(** wrapSource(buildTxn, token). Modelled from the spec: the update is
    composed with the token's own validity check of the operations in
    flight, so that the whole operation aborts if leadership was lost. *)
Definition wrapSource (buildTxn : TransactionSource) (token : Token.t)
  : TransactionSource :=
  fun attempt st =>
    let '(st1, built) := buildTxn attempt st in
    match built with
    | inl err => (st1, inl err)
    | inr ops =>
        match Check token ops with
        | inl err => (st1, inl (Trace err))
        | inr checked => (st1, inr checked)
        end
    end.

(** ** The operations of status.go *)

Section Status.

(** [escapeReplacer.Replace] and [unescapeReplacer.Replace]: the two
    replacers are package variables declared in another file. *)
Variable escapeReplace : string -> string.
Variable unescapeReplace : string -> string.

(** escapeKeys is used to escape bad keys in StatusData. *)
Definition escapeKeys (input : gmap string Value) : gmap string Value :=
  mapKeys escapeReplace input.

(** unescapeKeys is used to restore escaped keys from StatusData to their
    original values. *)
Definition unescapeKeys (input : gmap string Value) : gmap string Value :=
  mapKeys unescapeReplace input.

(** The body of getStatus after the lookup: the error mapping and the
    conversion to a StatusInfo, before the deferred annotation. *)
Definition getStatusResult (badge : string) (found : error + statusDoc.t)
  : StatusInfo.t * option error :=
  match found with
  | inl err =>
      if isErrNotFound err then (StatusInfo.zero, Some (NotFoundf badge))
      else (StatusInfo.zero, Some (Trace err))
  | inr doc =>
      (StatusInfo.mk (statusDoc.Status doc) (statusDoc.StatusInfo doc)
                     (unescapeKeys (statusDoc.StatusData doc))
                     (statusDoc.Updated doc),
       None)
  end.

(** getStatus retrieves the status document associated with the given
    globalKey and converts it to a StatusInfo. *)
Definition getStatus (w : World) (globalKey badge : string) (st : State)
  : State * (StatusInfo.t * option error) :=
  let '(st1, found) := FindIdOne w globalKey st in
  let '(info, err) := getStatusResult badge found in
  (st1, (info, DeferredAnnotatef err "cannot get status")).

Definition toHistoryDoc (id : Z) (envUUID globalKey : string) (doc : statusDoc.t)
  : historicalStatusDoc.t :=
  historicalStatusDoc.mk id envUUID globalKey
    (statusDoc.Status doc) (statusDoc.StatusInfo doc)
    (statusDoc.StatusData doc) (statusDoc.Updated doc).

Definition probablyUpdateStatusHistory (w : World) (globalKey : string)
    (doc : statusDoc.t) (st : State) : State :=
  let '(st1, allocated) := sequence w "statushistory" st in
  match allocated with
  | inl err => Errorf "failed to generate id for status history: %v" err st1
  | inr id =>
      let historyDoc := toHistoryDoc id (EnvironUUID st1) globalKey doc in
      let '(st2, failure) := Insert w historyDoc st1 in
      match failure with
      | Some err => Errorf "failed to write status history: %v" err st2
      | None => st2
      end
  end.

(** updateStatusSource returns a transaction source that builds the
    operations necessary to set the supplied status. *)
Definition updateStatusSource (w : World) (globalKey : string) (doc : statusDoc.t)
  : TransactionSource :=
  fun _ st =>
    let '(st1, read) := readTxnRevno w statusesC globalKey st in
    match read with
    | inl err => (st1, inl (Trace err))
    | inr txnRevno =>
        (st1, inr [txn.mkOp statusesC globalKey (txn.AssertTxnRevno txnRevno)
                            None (Some doc) false])
    end.

(** The document setStatus builds from its params. *)
Definition newStatusDoc (w : World) (params : setStatusParams.t) : statusDoc.t :=
  statusDoc.mk "" (setStatusParams.status params) (setStatusParams.message params)
               (escapeKeys (setStatusParams.rawData params))
               (Some (nowToTheSecond w)) false.

(** The end of setStatus: the mapping of the error of st.run, before the
    deferred annotation. *)
Definition setStatusResult (badge : string) (err : option error) : option error :=
  if causeIsErrNotFound err then Some (NotFoundf badge) else TraceOpt err.

(** setStatus inteprets the supplied params as documented on the type. *)
Definition setStatus (w : World) (params : setStatusParams.t) (st : State)
  : State * option error :=
  let doc := newStatusDoc w params in
  let st1 := probablyUpdateStatusHistory w (setStatusParams.globalKey params) doc st in
  let buildTxn := updateStatusSource w (setStatusParams.globalKey params) doc in
  let buildTxn :=
    match setStatusParams.token params with
    | Some token => wrapSource buildTxn token
    | None => buildTxn
    end in
  let '(st2, err) := run w buildTxn st1 in
  (st2, DeferredAnnotatef (setStatusResult (setStatusParams.badge params) err)
                          "cannot set status").

Definition toStatusInfo (doc : historicalStatusDoc.t) : StatusInfo.t :=
  StatusInfo.mk (historicalStatusDoc.Status doc) (historicalStatusDoc.StatusInfo doc)
                (unescapeKeys (historicalStatusDoc.StatusData doc))
                (historicalStatusDoc.Updated doc).

(** The body of statusHistory after the query. *)
Definition statusHistoryResult (queried : error + list historicalStatusDoc.t)
  : list StatusInfo.t * option error :=
  match queried with
  | inl err =>
      if isErrNotFound err then ([], Some (NotFoundf "status history"))
      else ([], Some (Annotatef err "cannot get status history"))
  | inr docs => (toStatusInfo <$> docs, None)
  end.

Definition statusHistory (w : World) (globalKey : string) (size : Z) (st : State)
  : State * (list StatusInfo.t * option error) :=
  let query := Find (Some globalKey) in
  let '(st1, queried) := All w (Limit size (SortDescId query)) st in
  (st1, statusHistoryResult queried).

(** The transaction source setStatus runs. *)
Definition statusSource (w : World) (params : setStatusParams.t) : TransactionSource :=
  let buildTxn := updateStatusSource w (setStatusParams.globalKey params)
                                     (newStatusDoc w params) in
  match setStatusParams.token params with
  | Some token => wrapSource buildTxn token
  | None => buildTxn
  end.

(** *** The situations of a setStatus call *)

(** The state after the history recorder has run. *)
Definition recorded (w : World) (params : setStatusParams.t) (st : State) : State :=
  probablyUpdateStatusHistory w (setStatusParams.globalKey params)
                              (newStatusDoc w params) st.

(** The position, among the store calls, of the revision read. *)
Definition revisionRead (w : World) (params : setStatusParams.t) (st : State) : nat :=
  length (calls (recorded w params st)).

(** The revision read finds no current-status record for the key. *)
Definition recordMissing (w : World) (params : setStatusParams.t) (st : State) : Prop :=
  fault w (revisionRead w params st) = None
  /\ statuses st !! setStatusParams.globalKey params = None.

(** The signal of the token of the params, when they carry one that no
    longer holds. *)
Definition tokenSignal (params : setStatusParams.t) : option string :=
  match setStatusParams.token params with
  | Some token => Token.invalid token
  | None => None
  end.

(** The params carry no token, or one that still holds. *)
Definition tokenHolds (params : setStatusParams.t) : Prop :=
  forall token, setStatusParams.token params = Some token -> Token.invalid token = None.

(** The revision read succeeds, and when the transaction executes the record
    is gone or no longer at the revision read: the assertion fails. *)
Definition assertionFailed (w : World) (params : setStatusParams.t) (st : State)
  : Prop :=
  fault w (revisionRead w params st) = None
  /\ tokenHolds params
  /\ fault w (S (revisionRead w params st)) = None
  /\ exists doc revno,
       statuses st !! setStatusParams.globalKey params = Some (doc, revno)
       /\ forall doc', rivals w (statuses st) !! setStatusParams.globalKey params
                       <> Some (doc', revno).

End Status.

(** getOldestTimeToKeep returns the create time for the oldest status log
    to be kept. *)
Definition getOldestTimeToKeep (w : World) (globalKey : string) (size : Z) (st : State)
  : State * (Z * bool * option error) :=
  let '(st1, found) := One w (Skip (size - 1) (SortDescId (Find (Some globalKey)))) st in
  match found with
  | inl err =>
      if isErrNotFound err then (st1, (-1, false, None))
      else (st1, (-1, false, Some (Trace err)))
  | inr result => (st1, (historicalStatusDoc.Id result, true, None))
  end.

(** getEntitiesWithStatuses returns the ids for all entities that have
    history entries. *)
Definition getEntitiesWithStatuses (w : World) (st : State)
  : State * (error + list string) :=
  let '(st1, found) := Distinct w (Find None) st in
  match found with
  | inl err => (st1, inl (Trace err))
  | inr entityKeys => (st1, inr entityKeys)
  end.

(** The loop of PruneStatusHistory over the global keys. *)
Fixpoint pruneEntities (w : World) (maxLogsPerEntity : Z) (globalKeys : list string)
    (st : State) : State * option error :=
  match globalKeys with
  | [] => (st, None)
  | globalKey :: rest =>
      let '(st1, (keepUpTo, ok, err)) :=
        getOldestTimeToKeep w globalKey maxLogsPerEntity st in
      match err with
      | Some e => (st1, Some (Trace e))
      | None =>
          if negb ok then pruneEntities w maxLogsPerEntity rest st1
          else
            let '(st2, err) := RemoveAll w globalKey keepUpTo st1 in
            match err with
            | Some e => (st2, Some (Trace e))
            | None => pruneEntities w maxLogsPerEntity rest st2
            end
      end
  end.

(** PruneStatusHistory removes status history entries until only the
    maxLogsPerEntity newest records per unit remain. *)
Definition PruneStatusHistory (w : World) (maxLogsPerEntity : Z) (st : State)
  : State * option error :=
  let '(st1, found) := getEntitiesWithStatuses w st in
  match found with
  | inl err => (st1, Some (Trace err))
  | inr globalKeys => pruneEntities w maxLogsPerEntity globalKeys st1
  end.

(** ** Notions used to state the properties *)

(** The history entries of an entity, and a history newest first. *)
Definition entriesOf (globalKey : string) (coll : list historicalStatusDoc.t)
  : list historicalStatusDoc.t :=
  filter (ofEntity globalKey) coll.

Definition newestFirst (docs : list historicalStatusDoc.t)
  : list historicalStatusDoc.t :=
  merge_sort newerEq docs.

(** The identifier of the entity's n-th most recent entry, if it has one. *)
Definition nthMostRecent (n : Z) (globalKey : string)
    (coll : list historicalStatusDoc.t) : option Z :=
  historicalStatusDoc.Id <$> newestFirst (entriesOf globalKey coll) !! Z.to_nat (n - 1).

Definition identifiers (coll : list historicalStatusDoc.t) : list Z :=
  historicalStatusDoc.Id <$> coll.


#[local] Instance newerEq_trans : Transitive newerEq.
Proof. unfold newerEq. intros a b c ? ?. lia. Qed.

#[local] Instance newerEq_total : Total newerEq.
Proof. unfold newerEq. intros a b. lia. Qed.

(** [kept n coll d]: d is at least as new as the n-th most recent entry of
    its entity, when its entity has that many. *)
Definition kept (n : Z) (coll : list historicalStatusDoc.t)
    (d : historicalStatusDoc.t) : Prop :=
  match nthMostRecent n (historicalStatusDoc.EntityId d) coll with
  | Some c => c <= historicalStatusDoc.Id d
  | None => True
  end.

#[global] Instance kept_dec n coll d : Decision (kept n coll d).
Proof. unfold kept. destruct (nthMostRecent _ _ _); apply _. Defined.



(** ** Sample inputs *)

Definition sampleData : gmap string Value :=
  {[ "relation.id" := VInt 3;
     "hook$args" := VMap {[ "unit.name" := VString "mysql/0";
                            "tags" := VSlice [VMap {[ "a.b" := VBool true ]}] ]} ]}.

Definition sampleHeap : heap :=
  {[ 0%nat := {[ "relation.id" := RInt 3; "hook$args" := RMap 1%nat ]};
     1%nat := {[ "unit.name" := RString "mysql/0" ]} ]}.

Definition sampleEntry (id : Z) (globalKey status : string) : historicalStatusDoc.t :=
  historicalStatusDoc.mk id "env-1" globalKey status "" ∅ (Some (id * second)).

Definition sampleHistory : list historicalStatusDoc.t :=
  [ sampleEntry 1 "u#mysql/0" "maintenance"; sampleEntry 2 "m#0" "pending";
    sampleEntry 4 "u#mysql/0" "active"; sampleEntry 3 "u#mysql/0" "blocked";
    sampleEntry 5 "m#0" "started"; sampleEntry 6 "u#mysql/0" "error" ].

(** A record created with NeverSet true and an environment identifier, at
    revision 7, and a history of six entries of two entities. *)
Definition sampleState : State :=
  mkState {[ "u#mysql/0" := (statusDoc.mk "env-1" "unknown" "" ∅ None true, 7) ]}
          sampleHistory 7 "env-1" [] [].

(** A world in which a rival agent sets the status of the unit between the
    revision read and the transaction: the record moves on one revision. *)
Definition rivalDoc : statusDoc.t :=
  statusDoc.mk "" "blocked" "waiting for relation" ∅ (Some 1446460000000000000) false.

Definition racingWorld : World :=
  mkWorld 1446460000123456789 (fun _ => None)
          (fun coll => match coll !! "u#mysql/0" with
                       | Some (_, revno) => <["u#mysql/0" := (rivalDoc, revno + 1)]> coll
                       | None => coll
                       end).

(** A token whose leadership was lost. *)
Definition lostToken : Token.t := Token.mk (Some "leadership lost").

Definition sampleParams (token : option Token.t) : setStatusParams.t :=
  setStatusParams.mk "unit" "u#mysql/0" "active" "ready" sampleData token.

(** No failure, no rival, and a clock between two seconds. *)
Definition quietWorld : World :=
  mkWorld 1446460000123456789 (fun _ => None) (fun coll => coll).

(** * Properties *)

(** ** The key escaper *)

Lemma vsize_lookup (m : gmap string Value) k v :
  m !! k = Some v -> (vsize v < vsize (VMap m))%nat.
Proof.
  intros Hk. simpl.
  rewrite (map_fold_delete_L _ _ k v m); [lia | intros; lia | done].
Qed.

Lemma mapValue_VMap f sub : mapValue f (VMap sub) = VMap (mapKeys f sub).
Proof. reflexivity. Qed.

Lemma mapValue_other f v : (forall sub, v <> VMap sub) -> mapValue f v = v.
Proof. destruct v; try done. intros H. by destruct (H m). Qed.

(** When f does not identify two keys of m, the entry of k moves to f k. *)
Lemma rekey_lookup (g : string -> string) (h : Value -> Value)
    (m : gmap string Value) :
  (forall k1 k2, is_Some (m !! k1) -> is_Some (m !! k2) -> g k1 = g k2 -> k1 = k2) ->
  forall k, is_Some (m !! k) ->
    map_fold (fun key value result => <[g key := h value]> result)
             (∅ : gmap string Value) m !! g k = h <$> m !! k.
Proof.
  induction m as [|i x m Hi Hfirst IH] using map_first_key_ind; intros Hinj k Hk.
  - rewrite lookup_empty in Hk. by destruct Hk.
  - rewrite map_fold_insert_first_key by done.
    destruct (decide (i = k)) as [->|Hne].
    + by rewrite !lookup_insert_eq.
    + rewrite lookup_insert_ne in Hk by done.
      assert (Hin : forall j, is_Some (m !! j) -> is_Some (<[i:=x]> m !! j)).
      { intros j Hj. destruct (decide (i = j)) as [->|];
          [by rewrite lookup_insert_eq | by rewrite lookup_insert_ne]. }
      rewrite lookup_insert_ne.
      * rewrite lookup_insert_ne by done. apply IH; [|done].
        intros k1 k2 H1 H2. apply Hinj; auto.
      * intros Heq. apply Hne, Hinj; [by rewrite lookup_insert_eq | auto | done].
Qed.

(** Every key of the result is the image of a key of the input. *)
Lemma rekey_image (g : string -> string) (h : Value -> Value)
    (m : gmap string Value) j w :
  map_fold (fun key value result => <[g key := h value]> result)
           (∅ : gmap string Value) m !! j = Some w ->
  exists k, is_Some (m !! k) /\ g k = j.
Proof.
  induction m as [|i x m Hi Hfirst IH] using map_first_key_ind.
  - by rewrite map_fold_empty, lookup_empty.
  - rewrite map_fold_insert_first_key by done.
    destruct (decide (g i = j)) as [<-|Hne].
    + intros _. exists i. by rewrite lookup_insert_eq.
    + rewrite lookup_insert_ne by done. intros (k & Hk & Hg)%IH.
      exists k. split; [|done]. rewrite lookup_insert_ne; [done|congruence].
Qed.

Lemma mapKeys_lookup f (m : gmap string Value) :
  (forall k1 k2, is_Some (m !! k1) -> is_Some (m !! k2) -> f k1 = f k2 -> k1 = k2) ->
  forall k v, m !! k = Some v -> mapKeys f m !! f k = Some (mapValue f v).
Proof.
  intros Hinj k v Hk. unfold mapKeys. rewrite rekey_lookup by eauto. by rewrite Hk.
Qed.

Lemma mapKeys_image f (m : gmap string Value) j w :
  mapKeys f m !! j = Some w -> exists k, is_Some (m !! k) /\ f k = j.
Proof. apply rekey_image. Qed.

(** [keysAll] says what it should of the nested keys. *)
Lemma keysAll_lookup ok (m : gmap string Value) k v :
  keysAll ok m = true -> m !! k = Some v ->
  ok k = true /\ keysAllValue ok v = true.
Proof.
  unfold keysAll. intros Hall Hk.
  rewrite (map_fold_delete_L _ _ k v m) in Hall; [| |done].
  - apply andb_true_iff in Hall as [Hall _]. by apply andb_true_iff in Hall.
  - intros j1 j2 z1 z2 y _ _ _.
    destruct (ok j1), (ok j2), (keysAllValue ok z1), (keysAllValue ok z2), y; done.
Qed.

Lemma keysAll_nestedKey ok (m : gmap string Value) k :
  keysAll ok m = true -> nestedKey k m -> ok k = true.
Proof.
  intros Hall Hk. induction Hk as [m k v Hk|m k sub k' Hk _ IH].
  - by destruct (keysAll_lookup ok m k v Hall Hk).
  - apply IH. by destruct (keysAll_lookup ok m k (VMap sub) Hall Hk).
Qed.

(** The transform by [unesc] undoes the transform by [esc] on a map whose
    nested keys all survive [esc] then [unesc]. *)
Lemma mapKeys_inverse (esc unesc : string -> string) :
  forall n (m : gmap string Value),
    (vsize (VMap m) <= n)%nat ->
    (forall k, nestedKey k m -> unesc (esc k) = k) ->
    mapKeys unesc (mapKeys esc m) = m.
Proof.
  induction n as [|n IH]; intros m Hn Hkeys; [simpl in Hn; lia|].
  assert (Hinj1 : forall k1 k2, is_Some (m !! k1) -> is_Some (m !! k2) ->
                    esc k1 = esc k2 -> k1 = k2).
  { intros k1 k2 [v1 H1] [v2 H2] Heq.
    rewrite <- (Hkeys k1), <- (Hkeys k2) by (eapply nestedKey_here; eauto).
    by rewrite Heq. }
  assert (Hinj2 : forall j1 j2, is_Some (mapKeys esc m !! j1) ->
                    is_Some (mapKeys esc m !! j2) -> unesc j1 = unesc j2 -> j1 = j2).
  { intros j1 j2 [w1 H1] [w2 H2] Heq.
    apply mapKeys_image in H1 as (k1 & [v1 Hk1] & <-).
    apply mapKeys_image in H2 as (k2 & [v2 Hk2] & <-).
    rewrite !Hkeys in Heq by (eapply nestedKey_here; eauto). by subst. }
  assert (Hval : forall k v, m !! k = Some v -> mapValue unesc (mapValue esc v) = v).
  { intros k v Hk. destruct v as [| | | | |sub]; try done.
    rewrite !mapValue_VMap. f_equal. apply IH.
    - apply vsize_lookup in Hk. lia.
    - intros k' Hk'. apply Hkeys. eapply nestedKey_below; eauto. }
  apply map_eq. intros j.
  destruct (m !! j) as [v|] eqn:Hj.
  - rewrite <- (Hkeys j) by (eapply nestedKey_here; eauto).
    erewrite (mapKeys_lookup unesc); [|done|by apply mapKeys_lookup].
    f_equal. eauto.
  - destruct (mapKeys unesc (mapKeys esc m) !! j) as [w|] eqn:Hw; [|done].
    apply mapKeys_image in Hw as (j' & [w' Hj'] & <-).
    apply mapKeys_image in Hj' as (k & [v Hk] & <-).
    rewrite Hkeys in Hj by (eapply nestedKey_here; eauto). congruence.
Qed.

Section KeyEscaper.

Variable escapeReplace unescapeReplace : string -> string.

(** [escapedForm k]: the key k contains a reserved, escaped-form character. *)
Variable escapedForm : string -> bool.

(** The substitution table is fixed and injective: on a key free of escaped
    forms, the unescaping replacer undoes the escaping one. *)
Hypothesis table_inverse :
  forall k, escapedForm k = false -> unescapeReplace (escapeReplace k) = k.

(** C2. For every nested string-keyed map m whose keys contain no
    pre-existing escaped-form characters, unescapeKeys (escapeKeys m) = m;
    the transform moves each entry to its escaped key, recurses into the
    values that are nested string-keyed maps and passes every other value
    through untouched. *)
Theorem unescape_escape_roundtrip (m : gmap string Value) :
  keysAll (fun k => negb (escapedForm k)) m = true ->
  unescapeKeys unescapeReplace (escapeKeys escapeReplace m) = m
  /\ (forall k sub, m !! k = Some (VMap sub) ->
        escapeKeys escapeReplace m !! escapeReplace k
        = Some (VMap (escapeKeys escapeReplace sub)))
  /\ (forall k v, m !! k = Some v -> (forall sub, v <> VMap sub) ->
        escapeKeys escapeReplace m !! escapeReplace k = Some v).
Proof.
  intros Hclean.
  assert (Hkeys : forall k, nestedKey k m -> unescapeReplace (escapeReplace k) = k).
  { intros k Hk. apply table_inverse.
    apply (keysAll_nestedKey _ m k Hclean) in Hk. by destruct (escapedForm k). }
  assert (Hinj : forall k1 k2, is_Some (m !! k1) -> is_Some (m !! k2) ->
                   escapeReplace k1 = escapeReplace k2 -> k1 = k2).
  { intros k1 k2 [v1 H1] [v2 H2] Heq.
    rewrite <- (Hkeys k1), <- (Hkeys k2) by (eapply nestedKey_here; eauto).
    by rewrite Heq. }
  split; [|split].
  - unfold unescapeKeys, escapeKeys. by eapply mapKeys_inverse.
  - intros k sub Hk. unfold escapeKeys.
    by rewrite (mapKeys_lookup _ m Hinj k _ Hk).
  - intros k v Hk Hv. unfold escapeKeys.
    rewrite (mapKeys_lookup _ m Hinj k _ Hk). by rewrite mapValue_other.
Qed.

End KeyEscaper.

(** *** The full-width instance of the table *)

Lemma fullWidthEscape_cons c s :
  fullWidthEscape (String c s) =
  if Ascii.eqb (byte 46) c
  then String (byte 239) (String (byte 188) (String (byte 142) (fullWidthEscape s)))
  else if Ascii.eqb (byte 36) c
  then String (byte 239) (String (byte 188) (String (byte 132) (fullWidthEscape s)))
  else String c (fullWidthEscape s).
Proof.
  unfold fullWidthEscape, Replace.
  cbn -[Ascii.eqb].
  change (Ascii.Ascii false true true true false true false false) with (byte 46).
  change (Ascii.Ascii false false true false false true false false) with (byte 36).
  destruct (Ascii.eqb (byte 46) c); [done|].
  destruct (Ascii.eqb (byte 36) c); done.
Qed.

Lemma fullWidthUnescape_dot s :
  fullWidthUnescape (String (byte 239) (String (byte 188) (String (byte 142) s)))
  = String (byte 46) (fullWidthUnescape s).
Proof. reflexivity. Qed.

Lemma fullWidthUnescape_dollar s :
  fullWidthUnescape (String (byte 239) (String (byte 188) (String (byte 132) s)))
  = String (byte 36) (fullWidthUnescape s).
Proof. reflexivity. Qed.

Lemma fullWidthUnescape_cons c s :
  hasPrefix fullWidthDot (String c s) = false ->
  hasPrefix fullWidthDollar (String c s) = false ->
  fullWidthUnescape (String c s) = String c (fullWidthUnescape s).
Proof.
  intros H1 H2. unfold fullWidthUnescape, Replace.
  change (replaceFrom ?t 0 (String c s)) with
    (match matchAt t (String c s) with
     | Some (old, new) => new +:+ replaceFrom t (String.length old - 1)%nat s
     | None => String c (replaceFrom t 0%nat s)
     end).
  unfold matchAt.
  change (List.find ?f [(fullWidthDot, ?a); (fullWidthDollar, ?b)]) with
    (if hasPrefix fullWidthDot (String c s) then Some (fullWidthDot, a)
     else if hasPrefix fullWidthDollar (String c s) then Some (fullWidthDollar, b)
     else None).
  by rewrite H1, H2.
Qed.

Lemma hasPrefix_cons a old b s :
  hasPrefix (String a old) (String b s) = Ascii.eqb a b && hasPrefix old s.
Proof. reflexivity. Qed.

(** An escaped key continues an escaped form only where the key did. *)
Lemma hasPrefix_escape_tail (x : Ascii.ascii) s :
  x <> byte 239 ->
  hasPrefix (String (byte 188) (String x EmptyString)) (fullWidthEscape s) = true ->
  hasPrefix (String (byte 188) (String x EmptyString)) s = true.
Proof.
  intros Hx.
  assert (Hx' : Ascii.eqb x (byte 239) = false) by by apply Ascii.eqb_neq.
  destruct s as [|c2 s2]; [done|].
  rewrite fullWidthEscape_cons.
  destruct (Ascii.eqb (byte 46) c2); [by rewrite hasPrefix_cons|].
  destruct (Ascii.eqb (byte 36) c2); [by rewrite hasPrefix_cons|].
  rewrite !(hasPrefix_cons _ _ c2).
  destruct (Ascii.eqb (byte 188) c2); [|done]. rewrite !andb_true_l.
  destruct s2 as [|c3 s3]; [done|].
  rewrite fullWidthEscape_cons.
  destruct (Ascii.eqb (byte 46) c3); [by rewrite hasPrefix_cons, Hx'|].
  destruct (Ascii.eqb (byte 36) c3); [by rewrite hasPrefix_cons, Hx'|].
  by rewrite !hasPrefix_cons.
Qed.

Lemma hasPrefix_escape (x : Ascii.ascii) c s :
  x <> byte 239 ->
  hasPrefix (String (byte 239) (String (byte 188) (String x EmptyString)))
            (String c s) = false ->
  hasPrefix (String (byte 239) (String (byte 188) (String x EmptyString)))
            (String c (fullWidthEscape s)) = false.
Proof.
  intros Hx. rewrite !(hasPrefix_cons _ _ c).
  destruct (Ascii.eqb (byte 239) c); [|done]. rewrite !andb_true_l.
  intros Hs. apply not_true_is_false. intros He.
  apply hasPrefix_escape_tail in He; congruence.
Qed.

(** On a key that holds no full-width dot or dollar, unescaping undoes
    escaping. *)
Lemma fullWidth_inverse k :
  hasFullWidth k = false -> fullWidthUnescape (fullWidthEscape k) = k.
Proof.
  induction k as [|c s IH]; [done|].
  cbn [hasFullWidth]. intros H.
  apply orb_false_iff in H as [H Hs]. apply orb_false_iff in H as [Hdot Hdollar].
  rewrite fullWidthEscape_cons.
  destruct (Ascii.eqb_spec (byte 46) c) as [<-|Hc].
  { rewrite fullWidthUnescape_dot. f_equal. auto. }
  destruct (Ascii.eqb_spec (byte 36) c) as [<-|Hc'].
  { rewrite fullWidthUnescape_dollar. f_equal. auto. }
  rewrite fullWidthUnescape_cons, IH; [done|done| |].
  - by apply (hasPrefix_escape (byte 142)).
  - by apply (hasPrefix_escape (byte 132)).
Qed.

Example fullWidthEscape_sample :
  fullWidthEscape "a.b$c"
  = "a" +:+ fullWidthDot +:+ "b" +:+ fullWidthDollar +:+ "c".
Proof. reflexivity. Qed.

Lemma unescape_escape_roundtrip_witness :
  keysAll (fun k => negb (hasFullWidth k)) sampleData = true
  /\ unescapeKeys fullWidthUnescape (escapeKeys fullWidthEscape sampleData) = sampleData.
Proof.
  split; [vm_compute; reflexivity|].
  apply (unescape_escape_roundtrip fullWidthEscape fullWidthUnescape hasFullWidth
           fullWidth_inverse sampleData).
  vm_compute; reflexivity.
Defined.

(** ** mapKeys and the maps it is given *)

Lemma map_fold_and_true `{Countable K} {A} (p : K -> A -> bool) (m : gmap K A) :
  map_fold (fun k v acc => p k v && acc) true m = true <->
  (forall k v, m !! k = Some v -> p k v = true).
Proof.
  induction m as [|i x m Hi Hfirst IH] using map_first_key_ind.
  - rewrite map_fold_empty. split; [|done]. intros _ k v. by rewrite lookup_empty.
  - rewrite map_fold_insert_first_key by done. rewrite andb_true_iff, IH. split.
    + intros [Hx Hm] k v. destruct (decide (i = k)) as [->|Hne].
      * rewrite lookup_insert_eq. by intros [= <-].
      * rewrite lookup_insert_ne by done. auto.
    + intros Hall. split.
      * apply Hall. by rewrite lookup_insert_eq.
      * intros k v Hk. apply Hall. rewrite lookup_insert_ne; [done|]. congruence.
Qed.

Lemma holdsForRefs_spec p (m : gmap string RefValue) :
  holdsForRefs p m = true <-> (forall k l, m !! k = Some (RMap l) -> p l = true).
Proof.
  unfold holdsForRefs.
  pose proof (map_fold_and_true
    (fun (_ : string) v => match v with RMap l => p l | _ => true end) m) as Hs.
  cbv beta in Hs. rewrite Hs. clear Hs.
  split.
  - intros Hall k l Hk. apply (Hall k _ Hk).
  - intros Hall k v Hk. destruct v; try done. eauto.
Qed.

Lemma closed_spec (h : heap) :
  closed h = true <->
  (forall l k l', entriesAt h l !! k = Some (RMap l') -> l' ∈ dom h).
Proof.
  unfold closed.
  pose proof (map_fold_and_true
    (fun (_ : loc) m => holdsForRefs (fun l => bool_decide (l ∈ dom h)) m) h) as Hs.
  cbv beta in Hs. rewrite Hs. clear Hs.
  split.
  - intros Hall l k l'. unfold entriesAt. destruct (h !! l) as [m|] eqn:Hl; simpl.
    + intros Hk. apply Hall in Hl. rewrite holdsForRefs_spec in Hl.
      apply Hl in Hk. by apply bool_decide_eq_true in Hk.
    + by rewrite lookup_empty.
  - intros Hall l m Hl. apply holdsForRefs_spec. intros k l' Hk.
    apply bool_decide_eq_true. apply (Hall l k). unfold entriesAt. by rewrite Hl.
Qed.

Lemma agree_dom h h' l : agree h h' -> l ∈ dom h -> l ∈ dom h'.
Proof.
  intros Hag Hl. apply elem_of_dom. rewrite (Hag l Hl). by apply elem_of_dom.
Qed.

Lemma agree_trans h1 h2 h3 : agree h1 h2 -> agree h2 h3 -> agree h1 h3.
Proof.
  intros H12 H23 l Hl. rewrite (H23 l), (H12 l); eauto using agree_dom.
Qed.

Lemma agree_entriesAt h h' l : agree h h' -> l ∈ dom h -> entriesAt h' l = entriesAt h l.
Proof. intros Hag Hl. unfold entriesAt. by rewrite (Hag l Hl). Qed.

Lemma entriesAt_assign h result key value :
  entriesAt (assign result key value h) result = <[key := value]> (entriesAt h result).
Proof. unfold assign, entriesAt at 1. by rewrite lookup_insert_eq. Qed.

Lemma entriesAt_assign_ne h result key value l :
  l <> result -> entriesAt (assign result key value h) l = entriesAt h l.
Proof. intros Hl. unfold assign, entriesAt at 1. by rewrite lookup_insert_ne. Qed.

Lemma dom_assign h result key value :
  dom (assign result key value h) = {[result]} ∪ dom h.
Proof. unfold assign. by rewrite dom_insert_L. Qed.

Lemma copying_start h :
  copying h (fresh (dom h)) (<[fresh (dom h) := ∅]> h).
Proof.
  pose proof (is_fresh (dom h)) as Hfresh. split.
  - intros l Hl. rewrite lookup_insert_ne; [done|]. congruence.
  - rewrite dom_insert_L. set_solver.
  - intros l k l' Hl. unfold entriesAt.
    destruct (decide (l = fresh (dom h))) as [->|Hne].
    + rewrite lookup_insert_eq. simpl. by rewrite lookup_empty.
    + rewrite lookup_insert_ne by done. apply not_elem_of_dom in Hl.
      rewrite Hl. simpl. by rewrite lookup_empty.
  - rewrite !closed_spec. intros Hc l k l'.
    destruct (decide (l = fresh (dom h))) as [->|Hne].
    + unfold entriesAt. rewrite lookup_insert_eq. simpl. by rewrite lookup_empty.
    + unfold entriesAt. rewrite lookup_insert_ne by done. intros Hk.
      rewrite dom_insert_L. apply elem_of_union_r. by apply (Hc l k).
Qed.

Lemma copying_assign h result hc key value :
  result ∉ dom h ->
  copying h result hc ->
  (forall l, value = RMap l -> l ∈ dom hc /\ l ∉ dom h) ->
  copying h result (assign result key value hc).
Proof.
  intros Hr [Hag Hres Hfresh Hcl] Hv. split.
  - intros l Hl. unfold assign. rewrite lookup_insert_ne; [auto|]. congruence.
  - rewrite dom_assign. by apply elem_of_union_l, elem_of_singleton.
  - intros l k l' Hl. destruct (decide (l = result)) as [->|Hne].
    + rewrite entriesAt_assign. destruct (decide (key = k)) as [->|Hk].
      * rewrite lookup_insert_eq. intros Heq. apply (Hv l'). congruence.
      * rewrite lookup_insert_ne by done. by apply Hfresh.
    + rewrite entriesAt_assign_ne by done. by apply Hfresh.
  - intros Hc. specialize (Hcl Hc). rewrite closed_spec in Hcl |- *.
    intros l k l'. rewrite dom_assign.
    destruct (decide (l = result)) as [->|Hne].
    + rewrite entriesAt_assign. destruct (decide (key = k)) as [->|Hk].
      * rewrite lookup_insert_eq. intros Heq.
        apply elem_of_union_r. apply (Hv l'). congruence.
      * rewrite lookup_insert_ne by done. intros Hl.
        apply elem_of_union_r. by apply (Hcl result k).
    + rewrite entriesAt_assign_ne by done. intros Hl.
      apply elem_of_union_r. by apply (Hcl l k).
Qed.

Lemma copying_step h result h1 h2 value :
  copying h result h1 ->
  framed h1 value h2 ->
  copying h result h2 /\ value ∈ dom h2 /\ value ∉ dom h.
Proof.
  intros [Hag Hres Hfresh Hcl] [Hv [Hag2 Hres2 Hfresh2 Hcl2]].
  split; [|split].
  - split.
    + by eapply agree_trans.
    + by eapply agree_dom.
    + intros l k l' Hl. destruct (decide (l ∈ dom h1)) as [Hin|Hout].
      * rewrite (agree_entriesAt h1 h2) by done. by apply Hfresh.
      * intros Hk. apply (Hfresh2 l k l' Hout) in Hk.
        intros Hin. apply Hk. by eapply agree_dom.
    + auto.
  - done.
  - intros Hin. apply Hv. by eapply agree_dom.
Qed.

Lemma mapKeysRef_framed fuel f : forall input h result h',
  mapKeysRef fuel f input h = Some (result, h') -> framed h result h'.
Proof.
  induction fuel as [|fuel IH]; intros input h result h'; [done|].
  simpl. pose proof (is_fresh (dom h)) as Hfresh.
  set (r := fresh (dom h)) in *.
  assert (Hloop : forall entries hc,
    foldr (copyEntry (mapKeysRef fuel f) f r) (Some (<[r := ∅]> h)) entries = Some hc ->
    copying h r hc).
  { induction entries as [|[key value] entries IHe]; intros hc; simpl.
    - intros [= <-]. apply copying_start.
    - destruct (foldr _ _ entries) as [h1|]; [|done]. simpl.
      specialize (IHe h1 eq_refl).
      destruct value as [| | | |submap];
        try (intros [= <-]; by apply copying_assign).
      destruct (mapKeysRef fuel f submap h1) as [[value h2]|] eqn:Hrec; [|done].
      intros [= <-]. apply IH in Hrec.
      destruct (copying_step h r h1 h2 value IHe Hrec) as (Hc & Hin & Hout).
      apply copying_assign; [done|done|]. by intros l [= <-]. }
  destruct (foldr _ _ _) as [hc|] eqn:Hfold; [|done].
  intros [= <- <-]. split; [done|]. by eapply Hloop.
Qed.

Lemma nesting_agree h h' :
  closed h = true -> agree h h' ->
  forall n l, l ∈ dom h -> nesting h n l = true -> nesting h' n l = true.
Proof.
  intros Hc Hag. rewrite closed_spec in Hc.
  induction n as [|n IH]; intros l Hl; [done|]. simpl.
  rewrite !holdsForRefs_spec, (agree_entriesAt h h') by done.
  intros Hn k l' Hk. apply IH; eauto.
Qed.

Lemma mapKeysRef_total f : forall fuel input h,
  closed h = true -> nesting h fuel input = true ->
  is_Some (mapKeysRef fuel f input h).
Proof.
  induction fuel as [|fuel IH]; intros input h Hc Hn; [done|].
  simpl in Hn |- *. rewrite holdsForRefs_spec in Hn.
  pose proof (is_fresh (dom h)) as Hfresh.
  set (r := fresh (dom h)) in *.
  assert (Hloop : forall entries,
    (forall k sub, (k, RMap sub) ∈ entries ->
       sub ∈ dom h /\ nesting h fuel sub = true) ->
    exists hc,
      foldr (copyEntry (mapKeysRef fuel f) f r) (Some (<[r := ∅]> h)) entries = Some hc
      /\ copying h r hc).
  { induction entries as [|[key value] entries IHe]; intros Hsub; simpl.
    - eexists. split; [done|]. apply copying_start.
    - destruct IHe as (h1 & -> & Hcopy).
      { intros k sub Hin. apply (Hsub k). by right. }
      simpl.
      destruct value as [| | | |submap];
        try (eexists; split; [done|]; by apply copying_assign).
      destruct (Hsub key submap) as [Hin Hnest]; [by left|].
      destruct (IH submap h1) as [[value h2] Hrec].
      { by apply (copying_closed _ _ _ Hcopy). }
      { apply (nesting_agree h h1); [done|apply Hcopy|done|done]. }
      rewrite Hrec. eexists. split; [done|].
      apply mapKeysRef_framed in Hrec.
      destruct (copying_step h r h1 h2 value Hcopy Hrec) as (Hc2 & Hin2 & Hout).
      apply copying_assign; [done|done|]. by intros l [= <-]. }
  destruct (Hloop (map_to_list (entriesAt h input))) as (hc & -> & _); [|done].
  intros k sub Hin%elem_of_map_to_list. split.
  - rewrite closed_spec in Hc. by apply (Hc input k).
  - by apply (Hn k).
Qed.

Lemma copying_reaches h result hc l :
  (result ∉ dom h) -> copying h result hc -> reaches hc result l -> l ∉ dom h.
Proof.
  intros Hr Hcopy Hreach. induction Hreach as [|l1 k l2 _ IH Hk]; [done|].
  by apply (copying_fresh _ _ _ Hcopy l1 k l2).
Qed.

Lemma reaches_child (h : heap) l k l' x :
  entriesAt h l !! k = Some (RMap l') -> reaches h l' x -> reaches h l x.
Proof.
  intros Hk Hreach. induction Hreach as [|l1 k1 l2 _ IH Hk1].
  - eapply reaches_below; [apply reaches_here|done].
  - by eapply reaches_below.
Qed.

Lemma reaches_ext (h h' : heap) l :
  (forall x, reaches h l x -> h' !! x = h !! x) ->
  forall x, reaches h' l x -> reaches h l x.
Proof.
  intros Hsame x Hreach. induction Hreach as [|l1 k l2 _ IH Hk]; [apply reaches_here|].
  eapply reaches_below; [done|]. unfold entriesAt in *. by rewrite <- (Hsame l1 IH).
Qed.

Lemma readMap_ext (h h' : heap) n : forall l,
  (forall x, reaches h l x -> h' !! x = h !! x) ->
  readMap h' n l = readMap h n l.
Proof.
  induction n as [|n IH]; intros l Hsame; [done|]. simpl.
  assert (Hl : entriesAt h' l = entriesAt h l).
  { unfold entriesAt. by rewrite (Hsame l (reaches_here h l)). }
  rewrite Hl. apply map_fmap_ext. intros k v Hk.
  destruct v as [| | | |l']; try done. simpl. f_equal. apply IH.
  intros x Hx. apply Hsame. by eapply reaches_child.
Qed.

Lemma closed_reaches (h : heap) l x :
  closed h = true -> l ∈ dom h -> reaches h l x -> x ∈ dom h.
Proof.
  rewrite closed_spec. intros Hc Hl Hreach.
  induction Hreach as [|l1 k l2 _ IH Hk]; [done|]. by apply (Hc l1 k).
Qed.

Lemma assign_lookup_ne result key value (h : heap) x :
  x <> result -> assign result key value h !! x = h !! x.
Proof. intros Hx. unfold assign. by rewrite lookup_insert_ne. Qed.

Lemma mapKeys_fmap_foldr f (g : RefValue -> Value) (m : gmap string RefValue) :
  mapKeys f (g <$> m)
  = foldr (fun e res => <[f e.1 := mapValue f (g e.2)]> res) ∅ (map_to_list m).
Proof.
  unfold mapKeys. rewrite map_fold_fmap, map_fold_foldr.
  induction (map_to_list m) as [|[k v] es IH]; [done|]. simpl. by rewrite IH.
Qed.

Lemma built_start f h n :
  built f h n (fresh (dom h)) [] (<[fresh (dom h) := ∅]> h).
Proof.
  split.
  - unfold entriesAt. rewrite lookup_insert_eq. simpl. by rewrite fmap_empty.
  - intros k l' x. unfold entriesAt. rewrite lookup_insert_eq. simpl.
    by rewrite lookup_empty.
Qed.

(** Assigning into the result does not change what its entries stand for. *)
Lemma built_entries_assign n result (h1 hc : heap) :
  (forall x, x <> result -> x ∈ dom h1 -> hc !! x = h1 !! x) ->
  closed h1 = true -> result ∈ dom h1 ->
  (forall k l' x, entriesAt h1 result !! k = Some (RMap l') ->
     reaches h1 l' x -> x <> result) ->
  (forall k l', entriesAt h1 result !! k = Some (RMap l') ->
     forall x, reaches h1 l' x -> hc !! x = h1 !! x)
  /\ readValue (readMap hc n) <$> entriesAt h1 result
     = readValue (readMap h1 n) <$> entriesAt h1 result.
Proof.
  intros Hsame Hclosed Hres Haway.
  assert (Hentries : forall k l', entriesAt h1 result !! k = Some (RMap l') ->
            forall x, reaches h1 l' x -> hc !! x = h1 !! x).
  { intros k l' Hk x Hx. apply Hsame; [by eapply Haway|].
    eapply closed_reaches; [done| |done].
    rewrite closed_spec in Hclosed. by apply (Hclosed result k). }
  split; [done|]. apply map_fmap_ext. intros k v Hk.
  destruct v as [| | | |l']; try done. simpl. f_equal.
  apply readMap_ext. by apply (Hentries k).
Qed.

(** mapKeys over the heap builds, in the map it returns, what mapKeys makes
    of the value the input stands for. *)
Lemma mapKeysRef_reads f : forall n input (h : heap) result h',
  closed h = true -> nesting h n input = true ->
  mapKeysRef n f input h = Some (result, h') ->
  readMap h' n result = mapKeys f (readMap h n input).
Proof.
  induction n as [|n IHn]; intros input h result h' Hc Hn; [done|].
  simpl in Hn. rewrite holdsForRefs_spec in Hn.
  cbn [mapKeysRef readMap]. pose proof (is_fresh (dom h)) as Hfresh.
  set (r := fresh (dom h)) in *.
  assert (Hloop : forall es hc,
    (forall k sub, (k, RMap sub) ∈ es -> sub ∈ dom h /\ nesting h n sub = true) ->
    foldr (copyEntry (mapKeysRef n f) f r) (Some (<[r := ∅]> h)) es = Some hc ->
    copying h r hc /\ built f h n r es hc).
  { induction es as [|[key value] es IHe]; intros hc Hsub; simpl.
    { intros [= <-]. split; [apply copying_start|apply built_start]. }
    destruct (foldr _ _ es) as [h1|]; [|done]. simpl.
    destruct (IHe h1) as [Hcopy [Hread Haway]]; [|done|].
    { intros k sub Hin. apply (Hsub k). by right. }
    pose proof (copying_closed _ _ _ Hcopy Hc) as Hc1.
    pose proof (copying_result _ _ _ Hcopy) as Hr1.
    assert (Hscalar : forall v, (forall l, v <> RMap l) ->
      copying h r (assign r (f key) v h1)
      /\ built f h n r ((key, v) :: es) (assign r (f key) v h1)).
    { intros v Hv.
      destruct (built_entries_assign n r h1 (assign r (f key) v h1))
        as [Hsame Hfmap]; try done.
      { intros x Hx _. by apply assign_lookup_ne. }
      split; [apply copying_assign; [done|done|]; intros l ->; by destruct (Hv l)|].
      split.
      - rewrite entriesAt_assign, fmap_insert, Hfmap, Hread. simpl. f_equal.
        destruct v; try done. by destruct (Hv l).
      - intros k l' x. rewrite entriesAt_assign.
        destruct (decide (f key = k)) as [<-|Hne].
        + rewrite lookup_insert_eq. intros [= ->]. by destruct (Hv l').
        + rewrite lookup_insert_ne by done. intros Hk Hx. apply (Haway k l'); [done|].
          apply (reaches_ext h1 (assign r (f key) v h1)); [|done].
          by apply (Hsame k). }
    destruct value as [| | | |sub]; try (intros [= <-]; by apply Hscalar).
    destruct (mapKeysRef n f sub h1) as [[v2 h2]|] eqn:Hrec; [|done].
    intros [= <-].
    destruct (Hsub key sub) as [Hin Hnest]; [by left|].
    pose proof (mapKeysRef_framed _ _ _ _ _ _ Hrec) as Hframed.
    destruct (copying_step h r h1 h2 v2 Hcopy Hframed) as (Hcopy2 & Hin2 & Hout2).
    destruct Hframed as [Hv2 Hcopy12].
    assert (Hnew : forall x, reaches h2 v2 x -> x <> r).
    { intros x Hx ->. by apply (copying_reaches h1 v2 h2 r Hv2 Hcopy12 Hx). }
    assert (Hrec' : readMap h2 n v2 = mapKeys f (readMap h n sub)).
    { rewrite (IHn sub h1 v2 h2); [|done| |done].
      - f_equal. apply readMap_ext. intros x Hx.
        apply (copying_agree _ _ _ Hcopy). by eapply closed_reaches.
      - apply (nesting_agree h h1); [done|apply Hcopy|done|done]. }
    destruct (built_entries_assign n r h1
                (assign r (f key) (RMap v2) h2)) as [Hsame Hfmap]; try done.
    { intros x Hx Hdom. rewrite assign_lookup_ne by done.
      by apply (copying_agree _ _ _ Hcopy12). }
    assert (Hsame2 : forall x, reaches h2 v2 x ->
              assign r (f key) (RMap v2) h2 !! x = h2 !! x).
    { intros x Hx. apply assign_lookup_ne. by apply Hnew. }
    split; [apply copying_assign; [done|done|]; by intros l [= <-]|].
    split.
    - rewrite entriesAt_assign, fmap_insert.
      rewrite (agree_entriesAt h1 h2) by (done || apply Hcopy12).
      rewrite Hfmap, Hread. cbn [foldr fst snd readValue].
      rewrite mapValue_VMap, <- Hrec'. f_equal. f_equal. by apply readMap_ext.
    - intros k l' x. rewrite entriesAt_assign.
      rewrite (agree_entriesAt h1 h2) by (done || apply Hcopy12).
      destruct (decide (f key = k)) as [<-|Hne].
      + rewrite lookup_insert_eq. intros [= <-] Hx. apply Hnew.
        by apply (reaches_ext h2 (assign r (f key) (RMap v2) h2)).
      + rewrite lookup_insert_ne by done. intros Hk Hx. apply (Haway k l'); [done|].
        apply (reaches_ext h1 (assign r (f key) (RMap v2) h2)); [|done].
        by apply (Hsame k). }
  destruct (foldr _ _ _) as [hc|] eqn:Hfold; [|done].
  intros [= <- <-].
  destruct (Hloop (map_to_list (entriesAt h input)) hc) as [_ [Hread _]]; [|done|].
  { intros k sub Hin%elem_of_map_to_list. split.
    - rewrite closed_spec in Hc. by apply (Hc input k).
    - by apply (Hn k). }
  by rewrite Hread, mapKeys_fmap_foldr.
Qed.

(** C10. mapKeys (so escapeKeys and unescapeKeys, for either replacer) never
    mutates its argument: on every input map of a closed heap it returns; the
    map it returns and every map nested in it are freshly allocated, and
    stand for the transformed copy of what the input stands for; every map
    that existed before the call, the input and its nested maps among them,
    is after the call what it was before, and the input stands for the value
    it stood for. *)
Theorem mapKeys_leaves_input_unchanged (f : string -> string) fuel input (h : heap) :
  closed h = true -> nesting h fuel input = true ->
  exists result h',
    mapKeysRef fuel f input h = Some (result, h')
    /\ (forall l, reaches h' result l -> l ∉ dom h)
    /\ readMap h' fuel result = mapKeys f (readMap h fuel input)
    /\ (forall l, l ∈ dom h -> h' !! l = h !! l)
    /\ (input ∈ dom h -> forall l, reaches h input l -> h' !! l = h !! l)
    /\ (input ∈ dom h -> readMap h' fuel input = readMap h fuel input).
Proof.
  intros Hc Hn.
  destruct (mapKeysRef_total f fuel input h Hc Hn) as [[result h'] Hrun].
  exists result, h'. split; [done|].
  destruct (mapKeysRef_framed _ _ _ _ _ _ Hrun) as [Hr Hcopy].
  assert (Hinput : input ∈ dom h -> forall l, reaches h input l -> h' !! l = h !! l).
  { intros Hin l Hreach. apply Hcopy. by eapply closed_reaches. }
  split_and!.
  - intros l. by apply copying_reaches.
  - by apply mapKeysRef_reads.
  - apply Hcopy.
  - done.
  - intros Hin. apply readMap_ext. by apply Hinput.
Qed.

Example mapKeysRef_sample :
  exists h',
    mapKeysRef 2 fullWidthEscape 0%nat sampleHeap = Some (2%nat, h')
    /\ h' !! 2%nat = Some {[ "relation" +:+ fullWidthDot +:+ "id" := RInt 3;
                            "hook" +:+ fullWidthDollar +:+ "args" := RMap 3%nat ]}
    /\ h' !! 3%nat = Some {[ "unit" +:+ fullWidthDot +:+ "name" := RString "mysql/0" ]}
    /\ h' !! 0%nat = sampleHeap !! 0%nat /\ h' !! 1%nat = sampleHeap !! 1%nat.
Proof. eexists. split; [vm_compute; reflexivity|]. vm_compute. done. Qed.

Lemma mapKeys_leaves_input_unchanged_witness :
  closed sampleHeap = true /\ nesting sampleHeap 2 0%nat = true
  /\ exists result h',
       mapKeysRef 2 fullWidthEscape 0%nat sampleHeap = Some (result, h')
       /\ (forall l, reaches h' result l -> l ∉ dom sampleHeap)
       /\ readMap h' 2 result = mapKeys fullWidthEscape (readMap sampleHeap 2 0%nat)
       /\ (forall l, l ∈ dom sampleHeap -> h' !! l = sampleHeap !! l).
Proof.
  split; [vm_compute; reflexivity|]. split; [vm_compute; reflexivity|].
  destruct (mapKeys_leaves_input_unchanged fullWidthEscape 2 0%nat sampleHeap)
    as (result & h' & Hrun & Hfresh & Hread & Hsame & _);
    [vm_compute; reflexivity|vm_compute; reflexivity|].
  exists result, h'. auto.
Defined.

(** ** The store calls and the history recorder *)


(** What the recorder does, by the failures that strike it. *)
Lemma probablyUpdateStatusHistory_cases w globalKey doc st :
  let n := length (calls st) in
  let historyDoc := toHistoryDoc (nextSequence st) (EnvironUUID st) globalKey doc in
  let st' := probablyUpdateStatusHistory w globalKey doc st in
  statuses st' = statuses st
  /\ match fault w n with
     | Some msg =>
         calls st' = calls st ++ [CallSequence "statushistory"]
         /\ history st' = history st
         /\ logged st' = logged st ++
              [("failed to generate id for status history: %v", StoreFailure msg)]
     | None =>
         calls st' = calls st ++ [CallSequence "statushistory"; CallInsert historyDoc]
         /\ match fault w (S n) with
            | Some msg =>
                history st' = history st
                /\ logged st' = logged st ++
                     [("failed to write status history: %v", StoreFailure msg)]
            | None =>
                if decide (nextSequence st ∈ identifiers (history st))
                then history st' = history st
                     /\ logged st' = logged st ++
                          [("failed to write status history: %v",
                            StoreFailure "duplicate key")]
                else history st' = history st ++ [historyDoc]
                     /\ logged st' = logged st
            end
     end.
Proof.
  intros n historyDoc st'. subst st' n historyDoc.
  unfold probablyUpdateStatusHistory, sequence, Insert, storeCall. simpl.
  destruct (fault w (length (calls st))) as [msg|] eqn:Hseq; simpl; [done|].
  rewrite length_app. simpl. rewrite Nat.add_1_r.
  destruct (fault w (S (length (calls st)))) as [msg|] eqn:Hins; simpl.
  { by rewrite <- app_assoc. }
  unfold identifiers.
  destruct (decide (nextSequence st ∈ historicalStatusDoc.Id <$> history st));
    simpl; by rewrite <- app_assoc.
Qed.

(** C7. The history recorder never fails the caller's operation: it returns
    a state and no error and leaves the current-status records alone; a
    failure to allocate the sequence value is logged, and then the sequence
    call is the only store call made, so no insert is attempted; a failure of
    the insert is logged and the history is left as it was. *)
Theorem history_recorder_swallows_failures w globalKey doc st :
  let n := length (calls st) in
  let st' := probablyUpdateStatusHistory w globalKey doc st in
  statuses st' = statuses st
  /\ (forall msg, fault w n = Some msg ->
        calls st' = calls st ++ [CallSequence "statushistory"]
        /\ (forall historyDoc, CallInsert historyDoc ∉ drop n (calls st'))
        /\ history st' = history st
        /\ logged st' = logged st ++
             [("failed to generate id for status history: %v", StoreFailure msg)])
  /\ (forall msg, fault w n = None -> fault w (S n) = Some msg ->
        history st' = history st
        /\ logged st' = logged st ++
             [("failed to write status history: %v", StoreFailure msg)])
  /\ (fault w n = None -> fault w (S n) = None ->
        nextSequence st ∈ identifiers (history st) ->
        history st' = history st
        /\ logged st' = logged st ++
             [("failed to write status history: %v", StoreFailure "duplicate key")])
  /\ (fault w n = None -> fault w (S n) = None ->
        nextSequence st ∉ identifiers (history st) ->
        history st' = history st
                      ++ [toHistoryDoc (nextSequence st) (EnvironUUID st) globalKey doc]
        /\ logged st' = logged st).
Proof.
  intros n st'.
  destruct (probablyUpdateStatusHistory_cases w globalKey doc st) as [Hst Hcases].
  fold n st' in Hst, Hcases. split; [done|]. split; [|split; [|split]].
  - intros msg Hf. rewrite Hf in Hcases. destruct Hcases as (Hc & Hh & Hl).
    repeat split; try done.
    intros historyDoc. rewrite Hc. unfold n. rewrite drop_app_length.
    intros Hin. apply list_elem_of_singleton in Hin. discriminate.
  - intros msg Hf1 Hf2. rewrite Hf1, Hf2 in Hcases. by destruct Hcases.
  - intros Hf1 Hf2 Hid. rewrite Hf1, Hf2 in Hcases.
    destruct Hcases as [_ Hcases]. by rewrite decide_True in Hcases.
  - intros Hf1 Hf2 Hid. rewrite Hf1, Hf2 in Hcases.
    destruct Hcases as [_ Hcases]. by rewrite decide_False in Hcases.
Qed.

(** ** The status store *)

Section StatusStore.

Variable escapeReplace unescapeReplace : string -> string.

Lemma recorded_statuses w params st :
  statuses (recorded escapeReplace w params st) = statuses st.
Proof. apply probablyUpdateStatusHistory_cases. Qed.

Lemma setStatus_unfold w params st :
  setStatus escapeReplace w params st =
  let '(st2, err) := run w (statusSource escapeReplace w params)
                         (recorded escapeReplace w params st) in
  (st2, DeferredAnnotatef (setStatusResult (setStatusParams.badge params) err)
                          "cannot set status").
Proof. reflexivity. Qed.

(** The source reads the revision, then has the token check the update. *)
Lemma statusSource_cases w params st1 :
  let key := setStatusParams.globalKey params in
  let st2 := withCalls (calls st1 ++ [CallReadTxnRevno key]) st1 in
  statusSource escapeReplace w params 0 st1 =
  match fault w (length (calls st1)) with
  | Some msg => (st2, inl (Trace (Trace (StoreFailure msg))))
  | None =>
      match statuses st1 !! key with
      | None => (st2, inl (Trace (Trace ErrNotFound)))
      | Some (_, revno) =>
          match tokenSignal params with
          | Some signal => (st2, inl (Trace (Invalidated signal)))
          | None =>
              (st2, inr [txn.mkOp statusesC key (txn.AssertTxnRevno revno) None
                           (Some (newStatusDoc escapeReplace w params)) false])
          end
      end
  end.
Proof.
  intros key st2. subst st2.
  unfold statusSource, tokenSignal, wrapSource, updateStatusSource, readTxnRevno,
    storeCall, Check. fold key.
  destruct (setStatusParams.token params) as [token|]; simpl;
    destruct (fault w (length (calls st1))); simpl; try done;
    destruct (statuses st1 !! key) as [[d r]|]; simpl; try done.
  by destruct (Token.invalid token).
Qed.

(** The conditional write. *)
Lemma run_cases w (source : TransactionSource) st1 :
  run w source st1 =
  match source 0 st1 with
  | (st2, inl err) => (st2, Some err)
  | (st2, inr ops) =>
      let st3 := withCalls (calls st2 ++ [CallRunTxn ops])
                           (withStatuses (rivals w (statuses st2)) st2) in
      match fault w (length (calls st2)) with
      | Some msg => (st3, Some (StoreFailure msg))
      | None =>
          if forallb (assertHolds (statuses st3)) ops
          then (withStatuses (foldl applyOp (statuses st3) ops) st3, None)
          else (st3, Some ErrNotFound)
      end
  end.
Proof.
  unfold run, storeCall. destruct (source 0 st1) as [st2 [err|ops]]; [done|].
  simpl. by destruct (fault w (length (calls st2))).
Qed.

(** What setStatus does after the recorder, by what the revision read finds,
    what the token says, the failures of the store and the rivals. *)
Lemma setStatus_cases w params st :
  let key := setStatusParams.globalKey params in
  let badge := setStatusParams.badge params in
  let doc := newStatusDoc escapeReplace w params in
  let st1 := recorded escapeReplace w params st in
  let n := length (calls st1) in
  let st' := (setStatus escapeReplace w params st).1 in
  let err := (setStatus escapeReplace w params st).2 in
  history st' = history st1 /\ logged st' = logged st1 /\
  match fault w n with
  | Some msg =>
      calls st' = calls st1 ++ [CallReadTxnRevno key]
      /\ statuses st' = statuses st
      /\ err = Some (Annotatef (Trace (Trace (Trace (StoreFailure msg))))
                               "cannot set status")
  | None =>
      match statuses st !! key with
      | None =>
          calls st' = calls st1 ++ [CallReadTxnRevno key]
          /\ statuses st' = statuses st
          /\ err = Some (Annotatef (NotFoundf badge) "cannot set status")
      | Some (_, revno) =>
          match tokenSignal params with
          | Some signal =>
              calls st' = calls st1 ++ [CallReadTxnRevno key]
              /\ statuses st' = statuses st
              /\ err = Some (Annotatef (Trace (Trace (Invalidated signal)))
                                       "cannot set status")
          | None =>
              let op := txn.mkOp statusesC key (txn.AssertTxnRevno revno)
                                 None (Some doc) false in
              calls st' = calls st1 ++ [CallReadTxnRevno key; CallRunTxn [op]]
              /\ match fault w (S n) with
                 | Some msg =>
                     statuses st' = rivals w (statuses st)
                     /\ err = Some (Annotatef (Trace (StoreFailure msg))
                                              "cannot set status")
                 | None =>
                     match rivals w (statuses st) !! key with
                     | Some (_, current) =>
                         if decide (current = revno)
                         then statuses st'
                              = <[key := (doc, revno + 1)]> (rivals w (statuses st))
                              /\ err = None
                         else statuses st' = rivals w (statuses st)
                              /\ err = Some (Annotatef (NotFoundf badge)
                                                       "cannot set status")
                     | None =>
                         statuses st' = rivals w (statuses st)
                         /\ err = Some (Annotatef (NotFoundf badge)
                                                  "cannot set status")
                     end
                 end
          end
      end
  end.
Proof.
  intros key badge doc st1 n st' err. subst st' err.
  pose proof (recorded_statuses w params st) as Hst. fold st1 in Hst.
  rewrite setStatus_unfold. fold st1 badge. rewrite run_cases, statusSource_cases.
  fold key n doc. rewrite Hst. clearbody st1.
  destruct (fault w n) as [msg|] eqn:Hread; [done|].
  destruct (statuses st !! key) as [[d revno]|] eqn:Hkey; [|done].
  destruct (tokenSignal params) as [signal|]; [done|].
  cbn [calls withCalls withStatuses statuses history logged fst snd].
  rewrite length_app, Nat.add_1_r, <- app_assoc. cbn [length app]. fold n.
  destruct (fault w (S n)) as [msg|]; [by rewrite Hst|].
  rewrite Hst.
  cbn [forallb assertHolds txn.Assert txn.Id andb foldl].
  destruct (rivals w (statuses st) !! key) as [[d' current]|] eqn:Hriv; [|done].
  destruct (decide (current = revno)) as [->|Hne].
  - rewrite bool_decide_eq_true_2 by done.
    unfold applyOp. cbn [txn.Remove txn.Id txn.Insert txn.Update]. by rewrite Hriv.
  - by rewrite bool_decide_eq_false_2 by done.
Qed.

Lemma tokenHolds_signal params : tokenHolds params <-> tokenSignal params = None.
Proof.
  unfold tokenHolds, tokenSignal.
  destruct (setStatusParams.token params) as [token|]; [|done].
  split; [by intros H; apply H | by intros H ? [= <-]].
Qed.

(** C3. setStatus returns NotFound carrying the caller's badge in exactly
    two situations: the revision read finds no record for the key, or the
    revision assertion fails when the transaction executes (the store
    reports both in the not-found error class); every other failure of the
    store or of the token is propagated, traced and annotated with "cannot
    set status", and is not a NotFound. The mapping itself turns an error of
    st.run into NotFound exactly when its cause is the not-found sentinel. *)
Theorem setStatus_not_found_situations w params st :
  let badge := setStatusParams.badge params in
  let err := (setStatus escapeReplace w params st).2 in
  (err = Some (Annotatef (NotFoundf badge) "cannot set status")
   <-> recordMissing escapeReplace w params st
       \/ assertionFailed escapeReplace w params st)
  /\ (forall e, err = Some e ->
        ~ (recordMissing escapeReplace w params st
           \/ assertionFailed escapeReplace w params st) ->
        exists failure,
          e = Annotatef (Trace failure) "cannot set status"
          /\ IsNotFound e = false
          /\ exists msg, Cause failure = StoreFailure msg
                         \/ Cause failure = Invalidated msg)
  /\ (forall runErr,
        setStatusResult badge runErr = Some (NotFoundf badge)
        <-> causeIsErrNotFound runErr = true)
  /\ (forall runErr,
        causeIsErrNotFound (Some runErr) = false ->
        DeferredAnnotatef (setStatusResult badge (Some runErr)) "cannot set status"
        = Some (Annotatef (Trace runErr) "cannot set status")).
Proof.
  intros badge err. subst err.
  pose proof (setStatus_cases w params st) as (_ & _ & Hcases).
  fold badge in Hcases. cbv zeta in Hcases.
  unfold recordMissing, assertionFailed, revisionRead.
  set (n := length (calls (recorded escapeReplace w params st))) in *.
  set (key := setStatusParams.globalKey params) in *.
  rewrite tokenHolds_signal.
  split; [|split; [|split]].
  - destruct (fault w n) as [msg|].
    { destruct Hcases as (_ & _ & ->). split; [done|]. by intros [[? _]|[? _]]. }
    destruct (statuses st !! key) as [[d revno]|].
    2:{ destruct Hcases as (_ & _ & ->). split; [|done]. intros _. by left. }
    destruct (tokenSignal params) as [signal|].
    { destruct Hcases as (_ & _ & ->). split; [done|].
      by intros [[_ ?]|(_ & ? & _)]. }
    destruct Hcases as [_ Hcases].
    destruct (fault w (S n)) as [msg|].
    { destruct Hcases as (_ & ->). split; [done|].
      by intros [[_ ?]|(_ & _ & ? & _)]. }
    destruct (rivals w (statuses st) !! key) as [[d' current]|] eqn:Hriv.
    2:{ destruct Hcases as (_ & ->). split; [|done]. intros _. right.
        repeat split; try done. by exists d, revno. }
    destruct (decide (current = revno)) as [->|Hne].
    + destruct Hcases as (_ & ->). split; [done|].
      intros [[_ ?]|(_ & _ & _ & d0 & r0 & [= <- <-] & Hno)]; [done|].
      by destruct (Hno d').
    + destruct Hcases as (_ & ->). split; [|done]. intros _. right.
      repeat split; try done. exists d, revno. split; [done|].
      intros doc' [= _ ?]. done.
  - intros e He Hnot. rewrite tokenHolds_signal in Hnot.
    destruct (fault w n) as [msg|].
    { destruct Hcases as (_ & _ & Herr). rewrite Herr in He. injection He as <-.
      eexists. split; [done|]. split; [done|]. exists msg. by left. }
    destruct (statuses st !! key) as [[d revno]|].
    2:{ destruct Hnot. by left. }
    destruct (tokenSignal params) as [signal|].
    { destruct Hcases as (_ & _ & Herr). rewrite Herr in He. injection He as <-.
      eexists. split; [done|]. split; [done|]. exists signal. by right. }
    destruct Hcases as [_ Hcases].
    destruct (fault w (S n)) as [msg|].
    { destruct Hcases as (_ & Herr). rewrite Herr in He. injection He as <-.
      eexists. split; [done|]. split; [done|]. exists msg. by left. }
    destruct (rivals w (statuses st) !! key) as [[d' current]|] eqn:Hriv.
    2:{ destruct Hnot. right. repeat split; try done. by exists d, revno. }
    destruct (decide (current = revno)) as [->|Hne].
    + destruct Hcases as (_ & Herr). by rewrite Herr in He.
    + destruct Hnot. right. repeat split; try done. exists d, revno.
      split; [done|]. intros doc' [= _ ?]. done.
  - intros runErr. unfold setStatusResult.
    destruct (causeIsErrNotFound runErr); [done|].
    split; [|done]. by destruct runErr.
  - intros runErr Hcause. unfold setStatusResult. by rewrite Hcause.
Qed.

(** C5. A setStatus call whose params carry a token that no longer holds
    leaves every stored current-status record unchanged and returns an
    error; when the record exists and the store answers the revision read,
    the error is the token's invalidation, traced and annotated. *)
Theorem setStatus_invalidated_token w params st token signal :
  setStatusParams.token params = Some token ->
  Token.invalid token = Some signal ->
  let key := setStatusParams.globalKey params in
  let st' := (setStatus escapeReplace w params st).1 in
  let err := (setStatus escapeReplace w params st).2 in
  statuses st' = statuses st
  /\ is_Some err
  /\ (fault w (revisionRead escapeReplace w params st) = None ->
      is_Some (statuses st !! key) ->
      err = Some (Annotatef (Trace (Trace (Invalidated signal))) "cannot set status")).
Proof.
  intros Htoken Hinvalid key st' err. subst st' err.
  pose proof (setStatus_cases w params st) as (_ & _ & Hcases).
  cbv zeta in Hcases. fold key in Hcases. unfold revisionRead.
  assert (Hsignal : tokenSignal params = Some signal).
  { unfold tokenSignal. by rewrite Htoken. }
  rewrite Hsignal in Hcases.
  destruct (fault w (length (calls (recorded escapeReplace w params st)))) as [msg|].
  { destruct Hcases as (_ & -> & ->). repeat split; [by eexists|done]. }
  destruct (statuses st !! key) as [[d revno]|].
  - destruct Hcases as (_ & -> & ->). repeat split; by eexists.
  - destruct Hcases as (_ & -> & ->). repeat split; [by eexists|].
    intros _ [? ?]. done.
Qed.



(** C9. Every successful setStatus overwrites the whole stored
    current-status record of the key with the document it built, whatever the
    record held before: the stored record then has NeverSet false and an
    empty environment identifier, and the status, message, escaped data and
    timestamp of the call; the records of the other keys are as the rivals
    left them. *)
Theorem setStatus_overwrites_record w params st :
  (setStatus escapeReplace w params st).2 = None ->
  let key := setStatusParams.globalKey params in
  let st' := (setStatus escapeReplace w params st).1 in
  exists stored previous revno,
    statuses st !! key = Some (previous, revno)
    /\ statuses st' !! key = Some (stored, revno + 1)
    /\ stored = newStatusDoc escapeReplace w params
    /\ statusDoc.NeverSet stored = false
    /\ statusDoc.EnvUUID stored = ""
    /\ statusDoc.Status stored = setStatusParams.status params
    /\ statusDoc.StatusInfo stored = setStatusParams.message params
    /\ statusDoc.StatusData stored = escapeKeys escapeReplace (setStatusParams.rawData params)
    /\ statusDoc.Updated stored = Some (nowToTheSecond w)
    /\ (forall other, other <> key ->
          statuses st' !! other = rivals w (statuses st) !! other).
Proof.
  intros Herr key st'. subst st'.
  pose proof (setStatus_cases w params st) as (_ & _ & Hcases).
  cbv zeta in Hcases. fold key in Hcases.
  destruct (fault w _); [by destruct Hcases as (_ & _ & Hc); rewrite Hc in Herr|].
  destruct (statuses st !! key) as [[d revno]|];
    [|by destruct Hcases as (_ & _ & Hc); rewrite Hc in Herr].
  destruct (tokenSignal params);
    [by destruct Hcases as (_ & _ & Hc); rewrite Hc in Herr|].
  destruct Hcases as [_ Hcases].
  destruct (fault w _); [by destruct Hcases as (_ & Hc); rewrite Hc in Herr|].
  destruct (rivals w (statuses st) !! key) as [[d' current]|];
    [|by destruct Hcases as (_ & Hc); rewrite Hc in Herr].
  destruct (decide (current = revno));
    [|by destruct Hcases as (_ & Hc); rewrite Hc in Herr].
  destruct Hcases as [-> _].
  exists (newStatusDoc escapeReplace w params), d, revno.
  rewrite lookup_insert_eq. repeat split; try done.
  intros other Hother. by rewrite lookup_insert_ne.
Qed.


End StatusStore.

(** ** Histories, newest first *)











(** ** The history reader *)

Section HistoryReader.

Variable unescapeReplace : string -> string.






End HistoryReader.

(** ** The history pruner *)
















(** ** The operations on sample inputs *)



Example PruneStatusHistory_sample :
  identifiers (history (PruneStatusHistory quietWorld 2 sampleState).1) = [2; 4; 5; 6]
  /\ (PruneStatusHistory quietWorld 2 sampleState).2 = None.
Proof. split; vm_compute; reflexivity. Qed.

Example statusHistory_sample :
  StatusInfo.Status <$> (statusHistory fullWidthUnescape quietWorld "u#mysql/0" 2
                                       sampleState).2.1
  = ["error"; "active"].
Proof. vm_compute. reflexivity. Qed.

(** setStatus then getStatus gives back the data as it was set. *)
Example setStatus_getStatus_sample :
  let st1 := (setStatus fullWidthEscape quietWorld (sampleParams None) sampleState).1 in
  (getStatus fullWidthUnescape quietWorld "u#mysql/0" "unit" st1).2
  = (StatusInfo.mk "active" "ready" sampleData (Some 1446460000000000000), None).
Proof. vm_compute. reflexivity. Qed.

(** A history entry is there although the authoritative write failed: the
    key has no current-status record. *)
Example history_entry_without_record :
  let params := setStatusParams.mk "machine" "m#9" "started" "" ∅ None in
  let result := setStatus fullWidthEscape quietWorld params sampleState in
  result.2 = Some (Annotatef (NotFoundf "machine") "cannot set status")
  /\ identifiers (entriesOf "m#9" (history result.1)) = [7]
  /\ statuses result.1 = statuses sampleState.
Proof. vm_compute. done. Qed.

(** A write built from a stale read loses the race: it returns NotFound with
    the caller's badge, and the stored record is the rival's. *)
Example setStatus_stale_revision :
  let result := setStatus fullWidthEscape racingWorld (sampleParams None) sampleState in
  result.2 = Some (Annotatef (NotFoundf "unit") "cannot set status")
  /\ statuses result.1 !! "u#mysql/0" = Some (rivalDoc, 8)
  /\ assertionFailed fullWidthEscape racingWorld (sampleParams None) sampleState.
Proof.
  split; [vm_compute; reflexivity|]. split; [vm_compute; reflexivity|].
  split; [reflexivity|]. split; [by intros token [=]|]. split; [reflexivity|].
  eexists _, 7. split; [vm_compute; reflexivity|].
  intros doc' Hdoc. vm_compute in Hdoc. discriminate.
Qed.

Lemma setStatus_invalidated_token_witness :
  setStatusParams.token (sampleParams (Some lostToken)) = Some lostToken
  /\ Token.invalid lostToken = Some "leadership lost"
  /\ statuses (setStatus fullWidthEscape quietWorld (sampleParams (Some lostToken))
                         sampleState).1
     = statuses sampleState
  /\ (setStatus fullWidthEscape quietWorld (sampleParams (Some lostToken))
                sampleState).2
     = Some (Annotatef (Trace (Trace (Invalidated "leadership lost")))
                       "cannot set status").
Proof.
  split; [reflexivity|]. split; [reflexivity|].
  destruct (setStatus_invalidated_token fullWidthEscape quietWorld
              (sampleParams (Some lostToken)) sampleState lostToken
              "leadership lost" eq_refl eq_refl) as (Hsame & _ & Herr).
  split; [exact Hsame|]. apply Herr; [reflexivity|].
  vm_compute. eexists. reflexivity.
Defined.

Lemma setStatus_overwrites_record_witness :
  (setStatus fullWidthEscape quietWorld (sampleParams None) sampleState).2 = None
  /\ exists stored previous revno,
       statuses sampleState !! "u#mysql/0" = Some (previous, revno)
       /\ statusDoc.NeverSet previous = true
       /\ statuses (setStatus fullWidthEscape quietWorld (sampleParams None)
                              sampleState).1 !! "u#mysql/0"
          = Some (stored, revno + 1)
       /\ statusDoc.NeverSet stored = false
       /\ statusDoc.EnvUUID stored = "".
Proof.
  assert (Hok : (setStatus fullWidthEscape quietWorld (sampleParams None)
                           sampleState).2 = None) by (vm_compute; reflexivity).
  split; [exact Hok|].
  destruct (setStatus_overwrites_record fullWidthEscape quietWorld (sampleParams None)
              sampleState Hok)
    as (stored & previous & revno & Hprev & Hnew & _ & Hnever & Henv & _).
  exists stored, previous, revno. split; [exact Hprev|]. split.
  - vm_compute in Hprev. by injection Hprev as <- _.
  - split; [exact Hnew|]. split; [exact Hnever|exact Henv].
Defined.



